(** * A shallow embedding of [api.js]: the upload proxy and its multipart parser

    The handler buffers the request body, reads the boundary parameter
    of the [Content-Type] header, cuts the body at the occurrences of
    ["--" + boundary], looks for the first part whose header block carries
    a [filename="..."] attribute and posts that part's payload to the
    processor service.

    Conventions of the embedding:
    - a [Buffer] is a [list byte];
    - a JavaScript string is the list of its UTF-16 code units ([list N]);
    - JavaScript numbers used as offsets are integers ([Z]), and the
      [-1] that [indexOf] returns for "not found" is kept as it is;
    - the [try { ... } catch] of the handler is an exception monad;
    - the [while] loop of the splitter runs on fuel, and a theorem shows
      that the fuel given by the handler is always enough. *)

From Stdlib Require Import Strings.Byte Strings.Ascii Strings.String.
From Stdlib Require Import List ZArith NArith Lia Bool.
Import ListNotations.

Local Open Scope Z_scope.

(** ** Buffers and JavaScript strings *)

Definition Buffer := list byte.

(** The code units of a JavaScript string. *)
Definition jsstring := list N.

(** A string literal of the source (all the literals are ASCII). *)
Definition js (s : string) : jsstring :=
  map N_of_ascii (list_ascii_of_string s).

(** The bytes of an ASCII literal. *)
Definition bytes (s : string) : Buffer := list_byte_of_string s.

Definition len {A : Type} (l : list A) : Z := Z.of_nat (length l).
Arguments len : simpl never.

(** ** Searching a list for a sub-list *)

Section Search.
Context {A : Type}.
Variable eqb : A -> A -> bool.

(** [prefixb pat s]: [pat] is a prefix of [s]. *)
Fixpoint prefixb (pat s : list A) : bool :=
  match pat, s with
  | [], _ => true
  | _ :: _, [] => false
  | p :: pat', c :: s' => eqb p c && prefixb pat' s'
  end.

(** [strip_prefix pat s]: what follows [pat] in [s], when [s] starts
    with [pat]. *)
Fixpoint strip_prefix (pat s : list A) : option (list A) :=
  match pat, s with
  | [], _ => Some s
  | _ :: _, [] => None
  | p :: pat', c :: s' => if eqb p c then strip_prefix pat' s' else None
  end.

(** The leftmost position at which [pat] occurs in [s], counted
    from [pos]. *)
Fixpoint find_from (pat s : list A) (pos : nat) : option nat :=
  match s with
  | [] => match pat with [] => Some pos | _ :: _ => None end
  | _ :: s' => if prefixb pat s then Some pos else find_from pat s' (S pos)
  end.
End Search.

(** [pat] occurs in [s] at offset [i]. *)
Definition occurs_at {A : Type} (pat s : list A) (i : Z) : Prop :=
  exists pre post, s = pre ++ pat ++ post /\ len pre = i.

(** [i] is the first offset at or after [from] at which [pat] occurs. *)
Definition first_occ_from {A : Type} (pat s : list A) (from i : Z) : Prop :=
  from <= i /\ occurs_at pat s i /\
  forall j, from <= j -> j < i -> ~ occurs_at pat s j.

(** [pat] does not occur in [s] at or after [from]. *)
Definition no_occ_from {A : Type} (pat s : list A) (from : Z) : Prop :=
  forall j, from <= j -> ~ occurs_at pat s j.

(** ** [Buffer.prototype.indexOf] and [Buffer.prototype.slice] *)

(** [buf.indexOf(value, byteOffset)]: a negative offset counts from the
    end of the buffer; the result is [-1] when [value] does not occur.
    For an empty [value] Node returns the offset, or the length of the
    buffer when the offset is beyond it. *)
Definition indexOf (buf value : Buffer) (byteOffset : Z) : Z :=
  let off := if byteOffset <? 0 then Z.max 0 (len buf + byteOffset)
             else byteOffset in
  if len buf <? off then
    match value with [] => len buf | _ :: _ => -1 end
  else
    match find_from Byte.eqb value (skipn (Z.to_nat off) buf) (Z.to_nat off) with
    | Some i => Z.of_nat i
    | None => -1
    end.

(** An index of [slice]: negative indices count from the end, and the
    result is kept within the buffer. *)
Definition clamp_index (n i : Z) : Z :=
  if i <? 0 then Z.max 0 (n + i) else Z.min i n.

(** [buf.slice(start, end)]. *)
Definition slice (buf : Buffer) (start end_ : Z) : Buffer :=
  let s := clamp_index (len buf) start in
  let e := clamp_index (len buf) end_ in
  if e <=? s then []
  else firstn (Z.to_nat (e - s)) (skipn (Z.to_nat s) buf).

(** [buf.slice(start)]: the end defaults to the length of the buffer. *)
Definition slice_from (buf : Buffer) (start : Z) : Buffer :=
  slice buf start (len buf).

(** [Buffer.concat(chunks)]. *)
Definition Buffer_concat (chunks : list Buffer) : Buffer := concat chunks.

(** ** UTF-8: [Buffer.from(string)] and [buf.toString("utf8")] *)

Definition byte_of_N (n : N) : byte :=
  match Byte.of_N n with Some b => b | None => x00 end.

Definition is_high_surrogate (c : N) : bool :=
  ((0xD800 <=? c) && (c <=? 0xDBFF))%N.

Definition is_low_surrogate (c : N) : bool :=
  ((0xDC00 <=? c) && (c <=? 0xDFFF))%N.

(** The UTF-8 bytes of one code point. *)
Definition utf8_of_code_point (cp : N) : Buffer :=
  (if cp <? 0x80 then [byte_of_N cp]
   else if cp <? 0x800 then
     [byte_of_N (N.lor 0xC0 (N.shiftr cp 6));
      byte_of_N (N.lor 0x80 (N.land cp 0x3F))]
   else if cp <? 0x10000 then
     [byte_of_N (N.lor 0xE0 (N.shiftr cp 12));
      byte_of_N (N.lor 0x80 (N.land (N.shiftr cp 6) 0x3F));
      byte_of_N (N.lor 0x80 (N.land cp 0x3F))]
   else
     [byte_of_N (N.lor 0xF0 (N.shiftr cp 18));
      byte_of_N (N.lor 0x80 (N.land (N.shiftr cp 12) 0x3F));
      byte_of_N (N.lor 0x80 (N.land (N.shiftr cp 6) 0x3F));
      byte_of_N (N.lor 0x80 (N.land cp 0x3F))])%N.

(** U+FFFD, which stands for a lone surrogate. *)
Definition replacement_bytes : Buffer := [xef; xbf; xbd].

(** [Buffer.from(s)] (the encoding defaults to UTF-8): a surrogate pair
    is one code point, a lone surrogate is replaced by U+FFFD. *)
Fixpoint Buffer_from (s : jsstring) : Buffer :=
  match s with
  | [] => []
  | c :: s' =>
      if is_high_surrogate c then
        match s' with
        | d :: s'' =>
            if is_low_surrogate d then
              utf8_of_code_point
                (0x10000 + (c - 0xD800) * 0x400 + (d - 0xDC00))%N
                ++ Buffer_from s''
            else replacement_bytes ++ Buffer_from s'
        | [] => replacement_bytes
        end
      else if is_low_surrogate c then replacement_bytes ++ Buffer_from s'
      else utf8_of_code_point c ++ Buffer_from s'
  end.

(** The state of the UTF-8 decoder: between two characters, or inside a
    multi-byte sequence with the code point read so far, the number of
    continuation bytes still needed and the range allowed for the next
    byte. *)
Inductive utf8_state :=
| Utf8Start
| Utf8Pending (cp : N) (needed : nat) (lower upper : N).

(** The code units of a decoded code point. *)
Definition utf16_of_code_point (cp : N) : jsstring :=
  (if cp <? 0x10000 then [cp]
   else [0xD800 + N.shiftr (cp - 0x10000) 10;
         0xDC00 + N.land (cp - 0x10000) 0x3FF])%N.

Definition REPLACEMENT : N := 0xFFFD%N.

(** A byte read between two characters. *)
Definition utf8_lead (b : N) : jsstring * utf8_state :=
  (if b <=? 0x7F then ([b], Utf8Start)
   else if (0xC2 <=? b) && (b <=? 0xDF) then
     ([], Utf8Pending (N.land b 0x1F) 0 0x80 0xBF)
   else if (0xE0 <=? b) && (b <=? 0xEF) then
     ([], Utf8Pending (N.land b 0xF) 1
            (if b =? 0xE0 then 0xA0 else 0x80)
            (if b =? 0xED then 0x9F else 0xBF))
   else if (0xF0 <=? b) && (b <=? 0xF4) then
     ([], Utf8Pending (N.land b 0x7) 2
            (if b =? 0xF0 then 0x90 else 0x80)
            (if b =? 0xF4 then 0x8F else 0xBF))
   else ([REPLACEMENT], Utf8Start))%N.

(** A byte read in a given state: what is written and the next state.
    Inside a sequence, a byte of the range extends the code point, and
    ends the sequence when no more byte is needed ([needed] counts the
    continuation bytes after the next one); any other byte gives one
    U+FFFD for the ill-formed sequence and is read again as the start of
    a character. *)
Definition utf8_step (st : utf8_state) (b : N) : jsstring * utf8_state :=
  match st with
  | Utf8Start => utf8_lead b
  | Utf8Pending cp needed lower upper =>
      if ((lower <=? b) && (b <=? upper))%N then
        let cp' := N.lor (N.shiftl cp 6) (N.land b 0x3F) in
        match needed with
        | O => (utf16_of_code_point cp', Utf8Start)
        | S needed' => ([], Utf8Pending cp' needed' 0x80 0xBF)
        end
      else
        let (out, st') := utf8_lead b in (REPLACEMENT :: out, st')
  end.

(** The end of the buffer: a sequence left open gives one U+FFFD. *)
Definition utf8_flush (st : utf8_state) : jsstring :=
  match st with
  | Utf8Start => []
  | Utf8Pending _ _ _ _ => [REPLACEMENT]
  end.

(** The decoder. *)
Fixpoint utf8_decode (st : utf8_state) (buf : Buffer) : jsstring :=
  match buf with
  | [] => utf8_flush st
  | b :: buf' =>
      let (out, st') := utf8_step st (Byte.to_N b) in
      out ++ utf8_decode st' buf'
  end.

(** [buf.toString("utf8")]. *)
Definition toString_utf8 (buf : Buffer) : jsstring := utf8_decode Utf8Start buf.

(** ** The two regular expressions *)

(** What [.] refuses: the line terminators LF, CR, U+2028 and U+2029. *)
Definition isLineTerminator (c : N) : bool :=
  ((c =? 10) || (c =? 13) || (c =? 0x2028) || (c =? 0x2029))%N.

Definition QUOTE : N := 34%N.

(** The literal parts of the two expressions: [boundary=], and
    [filename=] followed by a quote. *)
Definition lit_boundary : jsstring := js "boundary=".
Definition lit_filename : jsstring := js "filename=" ++ [QUOTE].

(** No character of [s] is a line terminator. *)
Definition no_line_terminator (s : jsstring) : bool :=
  forallb (fun c => negb (isLineTerminator c)) s.

(** The expression of [getBoundary]: the literal [boundary=], a greedy
    group of any number of [.] and the end of the string; the result is
    the group. The expression is tried at every position from the left;
    at a position, the group followed by [$] matches when nothing up to
    the end of the string is a line terminator. *)
Fixpoint match_boundary (s : jsstring) : option jsstring :=
  match s with
  | [] => None
  | _ :: s' =>
      match strip_prefix N.eqb lit_boundary s with
      | Some rest =>
          if no_line_terminator rest then Some rest
          else match_boundary s'
      | None => match_boundary s'
      end
  end.

(** The rest of the lazy group followed by the closing quote: the
    characters up to the first quote, none of which is a line
    terminator. *)
Fixpoint until_quote (s : jsstring) : option jsstring :=
  match s with
  | [] => None
  | c :: s' =>
      if (c =? QUOTE)%N then Some []
      else if isLineTerminator c then None
      else option_map (cons c) (until_quote s')
  end.

(** The expression of the file selector tried at the start of [s]: the
    literal [filename=], a quote, a lazy group of one or more [.] and a
    quote. The group takes one character, whatever it is but a line
    terminator, and then as few more as are needed to reach a quote. *)
Definition match_filename_here (s : jsstring) : option jsstring :=
  match strip_prefix N.eqb lit_filename s with
  | Some (c :: rest) =>
      if isLineTerminator c then None
      else option_map (cons c) (until_quote rest)
  | _ => None
  end.

(** [header.match] with that expression, group 1: the leftmost position
    at which the expression matches. *)
Fixpoint match_filename (s : jsstring) : option jsstring :=
  match s with
  | [] => None
  | _ :: s' =>
      match match_filename_here s with
      | Some name => Some name
      | None => match_filename s'
      end
  end.

(** ** [getBoundary] *)

(** What the code can throw inside the [try] block. *)
Inductive js_error :=
| TypeError_match_of_undefined
    (* [contentType.match] when [contentType] is [undefined] *)
| FetchError (reason : jsstring)
    (* [fetch] or [resp.arrayBuffer()] rejected *).

Inductive result (A : Type) :=
| Ok (a : A)
| Throw (e : js_error).
Arguments Ok {A} a.
Arguments Throw {A} e.

(** [getBoundary(contentType)]; [None] as argument is [undefined], on
    which [.match] throws; [None] as result is [null]. *)
Definition getBoundary (contentType : option jsstring) : result (option jsstring) :=
  match contentType with
  | None => Throw TypeError_match_of_undefined
  | Some s => Ok (match_boundary s)
  end.

(** ** The part splitter (lines 40 to 50) *)

Definition CRLFCRLF : string :=
  String "013" (String "010" (String "013" (String "010" EmptyString))).

(** The [while] loop. [None] is a loop that has not ended within
    [fuel] iterations. *)
Fixpoint split_loop (fuel : nat) (body boundaryBuf : Buffer) (start : Z)
    (parts : list Buffer) : option (list Buffer) :=
  match fuel with
  | O => None
  | S fuel' =>
      if start =? -1 then Some parts
      else
        let next := indexOf body boundaryBuf (start + len boundaryBuf) in
        if next =? -1 then Some parts
        else
          let part := slice body (start + len boundaryBuf + 2) (next - 2) in
          split_loop fuel' body boundaryBuf next (parts ++ [part])
  end.

(** [boundaryBuf], i.e. [Buffer.from("--" + boundary)]. *)
Definition boundary_marker (boundary : jsstring) : Buffer :=
  Buffer_from (js "--" ++ boundary).

Definition splitParts (body : Buffer) (boundary : jsstring) : option (list Buffer) :=
  let boundaryBuf := boundary_marker boundary in
  split_loop (S (length body)) body boundaryBuf (indexOf body boundaryBuf 0) [].

(** ** The file selector (lines 52 to 67) *)

(** The two variables that the [for] loop assigns. *)
Record selection := {
  fileBuffer : option Buffer;   (* [null] is [None] *)
  filename : jsstring
}.

Definition default_filename : jsstring := js "file.pdf".

Definition initial_selection : selection :=
  {| fileBuffer := None; filename := default_filename |}.

(** The body of the loop on one part: [None] when the loop goes on to
    the next part ([continue], or no match), the file name and the
    payload when it assigns the two variables and breaks. *)
Definition select_part (part : Buffer) : option (jsstring * Buffer) :=
  let headerEnd := indexOf part (Buffer_from (js CRLFCRLF)) 0 in
  if headerEnd =? -1 then None
  else
    let header := toString_utf8 (slice part 0 headerEnd) in
    match match_filename header with
    | Some fileMatch1 => Some (fileMatch1, slice_from part (headerEnd + 4))
    | None => None
    end.

(** The loop over the parts, from a given value of the two variables. *)
Fixpoint scan_parts (parts : list Buffer) (st : selection) : selection :=
  match parts with
  | [] => st
  | part :: rest =>
      match select_part part with
      | Some (name, payload) =>
          {| fileBuffer := Some payload; filename := name |}
      | None => scan_parts rest st
      end
  end.

(** ** The handler *)

Record request := {
  method : jsstring;
  content_type : option jsstring;  (* [req.headers["content-type"]] *)
  chunks : list Buffer             (* what iterating [req] yields *)
}.

(** The request sent to the processor service: the URL and the one field
    of the form. *)
Record upload := {
  up_url : jsstring;
  up_field : jsstring;
  up_filename : jsstring;
  up_content : Buffer
}.

(** The answer of the processor service. *)
Record downstream := {
  ds_status : Z;
  ds_content_type : option jsstring;  (* [resp.headers.get("content-type")] *)
  ds_body : Buffer
}.

(** What the handler writes to [res]: a JSON error, or the answer of
    the processor service. [detail] stands for [String(err)]. *)
Inductive response :=
| Json (status : Z) (error : string) (detail : option js_error)
| Relay (status : Z) (contentType : option jsstring) (body : Buffer).

(** The [try] block: the uploads sent so far and a value or an
    exception; [None] is a computation that does not end. *)
Definition M (A : Type) : Type := option (list upload * result A).

Definition ret {A : Type} (a : A) : M A := Some ([], Ok a).

Definition bind {A B : Type} (m : M A) (k : A -> M B) : M B :=
  match m with
  | None => None
  | Some (w, Throw e) => Some (w, Throw e)
  | Some (w, Ok a) =>
      match k a with
      | None => None
      | Some (w', r) => Some (w ++ w', r)
      end
  end.

Notation "x <- m ;; k" := (bind m (fun x => k))
  (at level 61, m at next level, right associativity).

Definition lift_result {A : Type} (r : result A) : M A := Some ([], r).

Definition lift_loop {A : Type} (o : option A) : M A :=
  match o with Some a => ret a | None => None end.

Definition jsstring_eqb (a b : jsstring) : bool :=
  (length a =? length b)%nat && prefixb N.eqb a b.

Section Handler.
(** The processor service: [fetch] followed by [resp.arrayBuffer()]. *)
Variable fetch : upload -> result downstream.
(** [process.env.PROCESSOR_URL]. *)
Variable PROCESSOR_URL : option jsstring.

Definition do_fetch (u : upload) : M downstream := Some ([u], fetch u).

(** Lines 69 to 85: the answer when no file was selected, and
    otherwise the upload and the relay of the answer to it. *)
Definition forward (url : jsstring) (st : selection) : M response :=
  match fileBuffer st with
  | None => ret (Json 400 "No file found in request" None)
  | Some content =>
      resp <- do_fetch {| up_url := url ++ js "/upload";
                          up_field := js "file";
                          up_filename := filename st;
                          up_content := content |} ;;
      ret (Relay (ds_status resp) (ds_content_type resp) (ds_body resp))
  end.

(** Lines 28 to 85, with [url] the value of [PROCESSOR_URL]. *)
Definition try_block (url : jsstring) (req : request) : M response :=
  let body := Buffer_concat (chunks req) in
  boundary <- lift_result (getBoundary (content_type req)) ;;
  match boundary with
  | None | Some [] => ret (Json 400 "Invalid multipart/form-data" None)
  | Some boundary =>
      parts <- lift_loop (splitParts body boundary) ;;
      forward url (scan_parts parts initial_selection)
  end.

(** The handler: the uploads it sends and the response it writes. *)
Definition handler (req : request) : option (list upload * response) :=
  if negb (jsstring_eqb (method req) (js "POST")) then
    Some ([], Json 405 "Only POST supported" None)
  else
    match PROCESSOR_URL with
    | None | Some [] =>
        Some ([], Json 500 "PROCESSOR_URL env variable missing" None)
    | Some url =>
        match try_block url req with
        | None => None
        | Some (w, Ok r) => Some (w, r)
        | Some (w, Throw err) => Some (w, Json 500 "Proxy failed" (Some err))
        end
    end.
End Handler.

(** ** Notions used to state the properties of the splitter *)

(** The occurrences of [pat] that a scan from the left finds when it
    starts at [from] and looks for the next occurrence from the end of
    the one it has found: an occurrence that overlaps a found one is
    not found. *)
Inductive scan_chain {A : Type} (pat s : list A) : Z -> list Z -> Prop :=
| chain_end (from : Z) :
    no_occ_from pat s from -> scan_chain pat s from []
| chain_step (from o : Z) (os : list Z) :
    first_occ_from pat s from o ->
    scan_chain pat s (o + len pat) os ->
    scan_chain pat s from (o :: os).

(** Each element with the one that follows it. *)
Definition consecutive_pairs {A : Type} (l : list A) : list (A * A) :=
  combine l (tl l).

(** The slice cut between an occurrence of the marker at [fst ab] and
    the next one at [snd ab]. *)
Definition part_between (body marker : Buffer) (ab : Z * Z) : Buffer :=
  slice body (fst ab + len marker + 2) (snd ab - 2).

Definition parts_between (body marker : Buffer) (os : list Z) : list Buffer :=
  map (part_between body marker) (consecutive_pairs os).

(** All the offsets at which [marker] occurs in [body], overlapping or
    not, in increasing order. *)
Definition all_occurrences (marker body : Buffer) : list Z :=
  filter (fun i => prefixb Byte.eqb marker (skipn (Z.to_nat i) body))
         (map Z.of_nat (seq 0 (S (length body)))).

(** ** Notions used to state the properties of the decoder *)

(** The states that the decoder reaches: inside a sequence, the next
    byte is checked against a range of continuation bytes. *)
Definition utf8_state_ok (st : utf8_state) : Prop :=
  match st with
  | Utf8Start => True
  | Utf8Pending _ _ lower _ => (0x80 <= lower)%N
  end.

(** A code unit from 128 on. *)
Definition non_ascii (c : N) : Prop := (0x80 <= c)%N.

(** What holds of the states that the decoder reaches, and makes the
    code point of a sequence that ends one of 128 or more: the ranges
    are ranges of continuation bytes, and the code point read so far is
    large enough, or will be after a byte of the range. *)
Definition utf8_state_good (st : utf8_state) : Prop :=
  match st with
  | Utf8Start => True
  | Utf8Pending cp needed lower upper =>
      (0x80 <= lower)%N /\ (upper <= 0xBF)%N /\
      match needed with
      | O => (2 <= cp)%N
      | S _ => (1 <= cp \/ 0x82 <= lower)%N
      end
  end.

(** A byte below 128. *)
Definition is_ascii (b : byte) : Prop := (Byte.to_N b <= 0x7F)%N.

(** ** Notions used to state the properties of the selector *)

(** What the group of the [filename] expression can hold: one character
    or more, none a line terminator, and no quote after the first one
    (the group is lazy, so it ends at the first quote it can end at). *)
Definition is_capture (cap : jsstring) : Prop :=
  cap <> [] /\ no_line_terminator cap = true /\ ~ In QUOTE (tl cap).

(** The separator of [select_part] as bytes, CR LF, and the quote. *)
Definition SEPARATOR : Buffer := [x0d; x0a; x0d; x0a].
Definition CRLF : Buffer := [x0d; x0a].
Definition DQUOTE : Buffer := [x22].

(** The header block of a part: the bytes before the first separator,
    when there is one. *)
Definition header_block (part : Buffer) : option Buffer :=
  let headerEnd := indexOf part SEPARATOR 0 in
  if headerEnd =? -1 then None else Some (slice part 0 headerEnd).

(** The payload of a part: the bytes that [select_part] cuts after the
    separator. *)
Definition payload_block (part : Buffer) : Buffer :=
  slice_from part (indexOf part SEPARATOR 0 + 4).

(** A part declares a file name: it has a header block, whose text the
    [filename] expression matches with [name] as group. *)
Definition declares_filename (part : Buffer) (name : jsstring) : Prop :=
  exists h, header_block part = Some h /\ match_filename (toString_utf8 h) = Some name.

(** A part declares no file name: it has no header block, or one that
    the expression does not match. *)
Definition declares_no_filename (part : Buffer) : Prop :=
  forall h, header_block part = Some h -> match_filename (toString_utf8 h) = None.

(** Lines 40 to 67 alone: the splitter followed by the selector. *)
Definition extract (body : Buffer) (boundary : jsstring) : option selection :=
  option_map (fun parts => scan_parts parts initial_selection)
             (splitParts body boundary).

(** What the handler answers once the processor service has answered or
    failed. *)
Definition relay (r : result downstream) : response :=
  match r with
  | Ok resp => Relay (ds_status resp) (ds_content_type resp) (ds_body resp)
  | Throw err => Json 500 "Proxy failed" (Some err)
  end.

(** The upload that the handler sends for a selection. *)
Definition upload_of (url name : jsstring) (content : Buffer) : upload :=
  {| up_url := url ++ js "/upload"; up_field := js "file";
     up_filename := name; up_content := content |}.

(** ** Requests used as examples *)

(** A part that carries a form field and no file. *)
Definition field_part (name : string) (value : Buffer) : Buffer :=
  bytes "Content-Disposition: form-data; name=" ++ DQUOTE ++ bytes name ++ DQUOTE
    ++ SEPARATOR ++ value.

(** A part that carries a file. *)
Definition file_part (name : string) (payload : Buffer) : Buffer :=
  bytes "Content-Disposition: form-data; name=" ++ DQUOTE ++ bytes "file" ++ DQUOTE
    ++ bytes "; filename=" ++ DQUOTE ++ bytes name ++ DQUOTE ++ CRLF
    ++ bytes "Content-Type: application/pdf" ++ SEPARATOR ++ payload.

(** The body that a client writes for these parts. *)
Definition multipart_body (boundary : string) (parts : list Buffer) : Buffer :=
  flat_map (fun p => bytes "--" ++ bytes boundary ++ CRLF ++ p ++ CRLF) parts
    ++ bytes "--" ++ bytes boundary ++ bytes "--" ++ CRLF.

Definition multipart_request (boundary : string) (body : Buffer) : request :=
  {| method := js "POST";
     content_type := Some (js "multipart/form-data; boundary=" ++ js boundary);
     chunks := [body] |}.

(** A processor service that answers 201 with a JSON body. *)
Definition example_fetch (u : upload) : result downstream :=
  Ok {| ds_status := 201;
        ds_content_type := Some (js "application/json");
        ds_body := bytes "{}" |}.

Definition example_url : jsstring := js "http://processor".

(** ** The answers of the handler, case by case *)

(** The uploads and the response of the handler on a request, as the
    source decides them from top to bottom. *)
Inductive handler_case (fetch : upload -> result downstream)
    (PROCESSOR_URL : option jsstring) (req : request) :
    list upload -> response -> Prop :=
| case_method :
    method req <> js "POST" ->
    handler_case fetch PROCESSOR_URL req [] (Json 405 "Only POST supported" None)
| case_no_url :
    method req = js "POST" ->
    PROCESSOR_URL = None \/ PROCESSOR_URL = Some [] ->
    handler_case fetch PROCESSOR_URL req []
                 (Json 500 "PROCESSOR_URL env variable missing" None)
| case_no_header (url : jsstring) :
    method req = js "POST" -> PROCESSOR_URL = Some url -> url <> [] ->
    content_type req = None ->
    handler_case fetch PROCESSOR_URL req []
                 (Json 500 "Proxy failed" (Some TypeError_match_of_undefined))
| case_no_boundary (url ct : jsstring) :
    method req = js "POST" -> PROCESSOR_URL = Some url -> url <> [] ->
    content_type req = Some ct ->
    match_boundary ct = None \/ match_boundary ct = Some [] ->
    handler_case fetch PROCESSOR_URL req []
                 (Json 400 "Invalid multipart/form-data" None)
| case_no_file (url ct boundary : jsstring) (parts : list Buffer) :
    method req = js "POST" -> PROCESSOR_URL = Some url -> url <> [] ->
    content_type req = Some ct ->
    match_boundary ct = Some boundary -> boundary <> [] ->
    splitParts (Buffer_concat (chunks req)) boundary = Some parts ->
    (forall q, In q parts -> declares_no_filename q) ->
    handler_case fetch PROCESSOR_URL req []
                 (Json 400 "No file found in request" None)
| case_upload (url ct boundary name : jsstring) (l1 l2 : list Buffer) (p : Buffer) :
    method req = js "POST" -> PROCESSOR_URL = Some url -> url <> [] ->
    content_type req = Some ct ->
    match_boundary ct = Some boundary -> boundary <> [] ->
    splitParts (Buffer_concat (chunks req)) boundary = Some (l1 ++ p :: l2) ->
    (forall q, In q l1 -> declares_no_filename q) ->
    declares_filename p name ->
    handler_case fetch PROCESSOR_URL req
                 [upload_of url name (payload_block p)]
                 (relay (fetch (upload_of url name (payload_block p)))).

(** ** Notions used to state the further properties *)

(** [piece] stands in [whole] as a run of consecutive bytes. *)
Definition piece_of (piece whole : Buffer) : Prop :=
  exists pre post, whole = pre ++ piece ++ post.

(** The bytes of the literal part of the [filename] expression. *)
Definition FILENAME_ATTR : Buffer := bytes "filename=" ++ DQUOTE.

(** A file field sent with no file chosen: an empty file name and an
    empty payload. *)
Definition empty_file_part : Buffer :=
  bytes "Content-Disposition: form-data; name=" ++ DQUOTE ++ bytes "file" ++ DQUOTE
    ++ bytes "; " ++ FILENAME_ATTR ++ DQUOTE ++ CRLF
    ++ bytes "Content-Type: application/octet-stream" ++ SEPARATOR.

(** The framing of a multipart body: each part after a delimiter and
    CR LF, and followed by CR LF; then the closing delimiter, the marker
    followed by [tail] (two hyphens and CR LF, as a rule). *)
Definition framed (marker : Buffer) (parts : list Buffer) (tail : Buffer) : Buffer :=
  flat_map (fun p => marker ++ CRLF ++ p ++ CRLF) parts ++ marker ++ tail.

(** * Properties *)

(** ** Occurrences of a sub-list *)

Lemma len_app {A : Type} (l1 l2 : list A) : len (l1 ++ l2) = len l1 + len l2.
Proof. unfold len. rewrite length_app. lia. Qed.

Lemma len_nonneg {A : Type} (l : list A) : 0 <= len l.
Proof. unfold len. lia. Qed.

Lemma len_cons {A : Type} (a : A) (l : list A) : len (a :: l) = len l + 1.
Proof. unfold len. simpl. lia. Qed.

Lemma len_nil_inv {A : Type} (l : list A) : len l = 0 -> l = [].
Proof. destruct l; [easy | rewrite len_cons; pose proof (len_nonneg l); lia]. Qed.

Lemma occurs_at_range {A : Type} (pat s : list A) (i : Z) :
  occurs_at pat s i -> 0 <= i /\ i + len pat <= len s.
Proof.
  intros (pre & post & -> & <-). rewrite !len_app.
  pose proof (len_nonneg pre). pose proof (len_nonneg post). lia.
Qed.

Lemma occurs_at_cons {A : Type} (pat s : list A) (c : A) (i : Z) :
  0 <= i -> (occurs_at pat (c :: s) (i + 1) <-> occurs_at pat s i).
Proof.
  intros Hi. split.
  - intros (pre & post & E & L). destruct pre as [|p pre].
    + unfold len in L. simpl in L. lia.
    + simpl in E. injection E as -> ->. exists pre, post. split; [easy|].
      rewrite len_cons in L. lia.
  - intros (pre & post & -> & <-). exists (c :: pre), post. split; [easy|].
    now rewrite len_cons.
Qed.

Lemma occurs_at_app_l {A : Type} (pat s l : list A) (i : Z) :
  0 <= i -> (occurs_at pat (l ++ s) (len l + i) <-> occurs_at pat s i).
Proof.
  intros Hi. split.
  - induction l as [|c l IH]; intros H.
    + now replace (len (@nil A) + i) with i in H by (unfold len; simpl; lia).
    + apply IH. apply (occurs_at_cons pat (l ++ s) c); [pose proof (len_nonneg l); lia|].
      change ((c :: l) ++ s) with (c :: (l ++ s)) in H. rewrite len_cons in H.
      now replace (len l + i + 1) with (len l + 1 + i) by lia.
  - intros (pre & post & -> & <-). exists (l ++ pre), post.
    split; [now rewrite app_assoc | apply len_app].
Qed.

Lemma occurs_at_here {A : Type} (pat post : list A) :
  occurs_at pat (pat ++ post) 0.
Proof. exists [], post. split; reflexivity. Qed.

Lemma occurs_at_mid {A : Type} (pre pat post : list A) :
  occurs_at pat (pre ++ pat ++ post) (len pre).
Proof. exists pre, post. split; reflexivity. Qed.

Section SearchFacts.
Context {A : Type}.
Variable eqb : A -> A -> bool.
Hypothesis eqb_eq : forall x y, eqb x y = true <-> x = y.

Lemma prefixb_spec (pat s : list A) :
  prefixb eqb pat s = true <-> exists post, s = pat ++ post.
Proof.
  revert s. induction pat as [|p pat IH]; intros s; simpl.
  - split; [intros _; now exists s | easy].
  - destruct s as [|c s].
    + split; [easy | intros (post & E); discriminate E].
    + rewrite andb_true_iff, eqb_eq, IH. split.
      * intros (-> & post & ->). now exists post.
      * intros (post & E). injection E as -> ->. split; [easy | now exists post].
Qed.

Lemma prefixb_occurs (pat s : list A) :
  prefixb eqb pat s = true <-> occurs_at pat s 0.
Proof.
  rewrite prefixb_spec. split.
  - intros (post & ->). apply occurs_at_here.
  - intros (pre & post & -> & L). apply len_nil_inv in L. subst pre.
    now exists post.
Qed.

Lemma strip_prefix_Some (pat s r : list A) :
  strip_prefix eqb pat s = Some r <-> s = pat ++ r.
Proof.
  revert s. induction pat as [|p pat IH]; intros s; simpl.
  - split; [now intros [= ->] | now intros ->].
  - destruct s as [|c s]; [easy|].
    destruct (eqb p c) eqn:E.
    + apply eqb_eq in E. subst c. rewrite IH. split; [now intros -> | now intros [= ->]].
    + split; [easy|]. intros [= -> ->].
      assert (eqb p p = true) by now apply eqb_eq. congruence.
Qed.

Lemma strip_prefix_None (pat s : list A) :
  strip_prefix eqb pat s = None <-> ~ occurs_at pat s 0.
Proof.
  rewrite <- prefixb_occurs, prefixb_spec. split.
  - intros H (post & ->).
    assert (E : strip_prefix eqb pat (pat ++ post) = Some post) by now apply strip_prefix_Some.
    congruence.
  - intros H. destruct (strip_prefix eqb pat s) as [r|] eqn:E; [|easy].
    apply strip_prefix_Some in E. exfalso. apply H. now exists r.
Qed.

(** [find_from] returns the first occurrence, and fails only when
    there is none. *)
Lemma find_from_Some (pat s : list A) (pos i : nat) :
  find_from eqb pat s pos = Some i ->
  (pos <= i)%nat /\ first_occ_from pat s 0 (Z.of_nat (i - pos)).
Proof.
  revert pos. induction s as [|c s IH]; intros pos; simpl.
  - destruct pat; [|easy]. intros [= <-]. split; [lia|].
    replace (Z.of_nat (pos - pos)) with 0 by lia.
    split; [lia|]. split; [apply (occurs_at_here [] [])|]. intros; lia.
  - destruct (prefixb eqb pat (c :: s)) eqn:E.
    + intros [= <-]. split; [lia|]. replace (Z.of_nat (pos - pos)) with 0 by lia.
      split; [lia|]. split; [now apply prefixb_occurs|]. intros; lia.
    + intros H. apply IH in H. destruct H as (Hle & _ & Hocc & Hmin).
      split; [lia|]. replace (Z.of_nat (i - pos)) with (Z.of_nat (i - S pos) + 1) by lia.
      split; [lia|]. split; [apply occurs_at_cons; [lia | easy]|].
      intros j Hj0 Hj Hc. destruct (Z.eq_dec j 0) as [->|Hne].
      * apply prefixb_occurs in Hc. congruence.
      * replace j with (j - 1 + 1) in Hc by lia.
        apply occurs_at_cons in Hc; [|lia]. apply (Hmin (j - 1)); [lia | lia | easy].
Qed.

Lemma find_from_None (pat s : list A) (pos : nat) :
  find_from eqb pat s pos = None -> no_occ_from pat s 0.
Proof.
  revert pos. induction s as [|c s IH]; intros pos; simpl.
  - destruct pat as [|p pat]; [easy|]. intros _ j _ (pre & post & E & _).
    destruct pre; discriminate E.
  - destruct (prefixb eqb pat (c :: s)) eqn:E; [easy|].
    intros H j Hj Hc. apply IH in H. destruct (Z.eq_dec j 0) as [->|Hne].
    + apply prefixb_occurs in Hc. congruence.
    + replace j with (j - 1 + 1) in Hc by lia.
      apply occurs_at_cons in Hc; [|lia]. apply (H (j - 1)); [lia | easy].
Qed.
End SearchFacts.

(** The first occurrence from a given offset is unique. *)
Lemma first_occ_from_unique {A : Type} (pat s : list A) (from i j : Z) :
  first_occ_from pat s from i -> first_occ_from pat s from j -> i = j.
Proof.
  intros (Hi & Oi & Mi) (Hj & Oj & Mj).
  destruct (Z.lt_trichotomy i j) as [L|[E|L]]; [|easy|].
  - exfalso. now apply (Mj i).
  - exfalso. now apply (Mi j).
Qed.

Lemma skipn_app_exact {A : Type} (l : list A) (n : nat) :
  (n <= length l)%nat -> l = firstn n l ++ skipn n l /\ length (firstn n l) = n.
Proof. intros H. split; [now rewrite firstn_skipn | rewrite length_firstn; lia]. Qed.

Lemma occurs_at_skipn {A : Type} (pat s : list A) (n : nat) (i : Z) :
  (n <= length s)%nat -> 0 <= i ->
  (occurs_at pat (skipn n s) i <-> occurs_at pat s (Z.of_nat n + i)).
Proof.
  intros H Hi. destruct (skipn_app_exact s n H) as (E & L).
  rewrite E at 2. replace (Z.of_nat n) with (len (firstn n s)) by (unfold len; lia).
  symmetry. now apply occurs_at_app_l.
Qed.

(** ** [indexOf] finds the first occurrence *)

Lemma byte_eqb_eq (x y : byte) : Byte.eqb x y = true <-> x = y.
Proof. split; [apply Byte.byte_dec_bl | apply Byte.byte_dec_lb]. Qed.

Lemma indexOf_unfold (buf value : Buffer) (from : Z) :
  0 <= from -> from <= len buf ->
  indexOf buf value from =
  match find_from Byte.eqb value (skipn (Z.to_nat from) buf) (Z.to_nat from) with
  | Some i => Z.of_nat i
  | None => -1
  end.
Proof.
  intros H0 H1. unfold indexOf.
  destruct (from <? 0) eqn:E; [lia|].
  destruct (len buf <? from) eqn:E'; [lia | reflexivity].
Qed.

Lemma indexOf_beyond (buf value : Buffer) (from : Z) :
  len buf < from -> value <> [] -> indexOf buf value from = -1.
Proof.
  intros H Hv. unfold indexOf. pose proof (len_nonneg buf).
  destruct (from <? 0) eqn:E; [lia|].
  destruct (len buf <? from) eqn:E'; [|lia].
  now destruct value.
Qed.

Lemma indexOf_found (buf value : Buffer) (from i : Z) :
  0 <= from -> value <> [] ->
  indexOf buf value from = i -> i <> -1 -> first_occ_from value buf from i.
Proof.
  intros H0 Hv E Hi. destruct (Z_lt_le_dec (len buf) from) as [Hb|Hb].
  - rewrite indexOf_beyond in E by assumption. congruence.
  - rewrite indexOf_unfold in E by assumption.
    destruct (find_from _ _ _ _) as [k|] eqn:F; [|congruence].
    apply (find_from_Some _ byte_eqb_eq) in F. destruct F as (Hk & _ & Ho & Hm).
    assert (Hn : (Z.to_nat from <= length buf)%nat) by (unfold len in Hb; lia).
    subst i. split; [lia|]. split.
    + apply (occurs_at_skipn _ _ _ _ Hn) in Ho; [|lia].
      now replace (Z.of_nat (Z.to_nat from) + Z.of_nat (k - Z.to_nat from))
        with (Z.of_nat k) in Ho by lia.
    + intros j Hj1 Hj2 Hc. apply (Hm (j - from)); [lia | lia |].
      apply (occurs_at_skipn _ _ _ _ Hn); [lia|].
      now replace (Z.of_nat (Z.to_nat from) + (j - from)) with j by lia.
Qed.

Lemma indexOf_none (buf value : Buffer) (from : Z) :
  0 <= from -> indexOf buf value from = -1 -> no_occ_from value buf from.
Proof.
  intros H0 E j Hj Hc. destruct (Z_lt_le_dec (len buf) from) as [Hb|Hb].
  - apply occurs_at_range in Hc. pose proof (len_nonneg value). lia.
  - rewrite indexOf_unfold in E by assumption.
    destruct (find_from _ _ _ _) as [k|] eqn:F; [lia|].
    apply (find_from_None _ byte_eqb_eq) in F.
    assert (Hn : (Z.to_nat from <= length buf)%nat) by (unfold len in Hb; lia).
    apply (F (j - from)); [lia|].
    apply (occurs_at_skipn _ _ _ _ Hn); [lia|].
    now replace (Z.of_nat (Z.to_nat from) + (j - from)) with j by lia.
Qed.

Lemma indexOf_first (buf value : Buffer) (from i : Z) :
  0 <= from -> value <> [] ->
  first_occ_from value buf from i -> indexOf buf value from = i.
Proof.
  intros H0 Hv H. destruct (Z.eq_dec (indexOf buf value from) (-1)) as [E|E].
  - exfalso. destruct H as (Hi & Ho & _).
    now apply (indexOf_none _ _ _ H0 E i).
  - apply (first_occ_from_unique value buf from); [|assumption].
    now apply indexOf_found.
Qed.

Lemma indexOf_absent (buf value : Buffer) (from : Z) :
  0 <= from -> value <> [] ->
  no_occ_from value buf from -> indexOf buf value from = -1.
Proof.
  intros H0 Hv H. destruct (Z.eq_dec (indexOf buf value from) (-1)) as [E|E]; [easy|].
  exfalso. destruct (indexOf_found buf value from _ H0 Hv eq_refl E) as (Hi & Ho & _).
  now apply (H _ Hi).
Qed.

(** ** [slice] within the buffer *)

Lemma slice_exact (pre mid post : Buffer) :
  slice (pre ++ mid ++ post) (len pre) (len pre + len mid) = mid.
Proof.
  unfold slice, clamp_index. rewrite !len_app.
  pose proof (len_nonneg pre). pose proof (len_nonneg mid). pose proof (len_nonneg post).
  destruct (len pre <? 0) eqn:E1; [lia|].
  destruct (len pre + len mid <? 0) eqn:E2; [lia|].
  rewrite !Z.min_l by lia.
  destruct (len pre + len mid <=? len pre) eqn:E3.
  - assert (len mid = 0) by lia. symmetry. now apply len_nil_inv.
  - replace (Z.to_nat (len pre)) with (length pre) by (unfold len; lia).
    rewrite skipn_app, skipn_all, Nat.sub_diag. simpl.
    replace (Z.to_nat (len pre + len mid - len pre)) with (length mid) by (unfold len; lia).
    rewrite firstn_app, firstn_all, Nat.sub_diag. simpl. apply app_nil_r.
Qed.

Lemma slice_empty (buf : Buffer) (start end_ : Z) :
  0 <= start -> 0 <= end_ -> end_ <= start -> slice buf start end_ = [].
Proof.
  intros H1 H2 H3. unfold slice, clamp_index.
  destruct (start <? 0) eqn:E1; [lia|]. destruct (end_ <? 0) eqn:E2; [lia|].
  destruct (Z.min end_ (len buf) <=? Z.min start (len buf)) eqn:E; [easy | lia].
Qed.

Lemma slice_length (buf : Buffer) (start end_ : Z) :
  0 <= start -> start <= end_ -> end_ <= len buf ->
  len (slice buf start end_) = end_ - start.
Proof.
  intros H1 H2 H3. unfold slice, clamp_index.
  destruct (start <? 0) eqn:E1; [lia|]. destruct (end_ <? 0) eqn:E2; [lia|].
  rewrite !Z.min_l by lia.
  destruct (end_ <=? start) eqn:E.
  - unfold len at 1. simpl. lia.
  - unfold len at 1. rewrite length_firstn, length_skipn. unfold len in H3. lia.
Qed.

Lemma slice_from_exact (pre post : Buffer) :
  slice_from (pre ++ post) (len pre) = post.
Proof.
  unfold slice_from. rewrite len_app.
  pose proof (slice_exact pre post []) as H. now rewrite app_nil_r in H.
Qed.

(** ** The part splitter *)

Lemma boundary_marker_eq (boundary : jsstring) :
  boundary_marker boundary = x2d :: x2d :: Buffer_from boundary.
Proof. reflexivity. Qed.

Lemma boundary_marker_len (boundary : jsstring) : 2 <= len (boundary_marker boundary).
Proof.
  rewrite boundary_marker_eq, !len_cons. pose proof (len_nonneg (Buffer_from boundary)). lia.
Qed.

Lemma boundary_marker_nonempty (boundary : jsstring) : boundary_marker boundary <> [].
Proof. now rewrite boundary_marker_eq. Qed.

Lemma parts_between_cons2 (body marker : Buffer) (a b : Z) (os : list Z) :
  parts_between body marker (a :: b :: os) =
  part_between body marker (a, b) :: parts_between body marker (b :: os).
Proof. reflexivity. Qed.

(** The loop, started at an occurrence with enough fuel, ends, and has
    then added the slices between the occurrences of the scan. *)
Lemma split_loop_chain (body pat : Buffer) :
  pat <> [] ->
  forall (fuel : nat) (start : Z) (acc : list Buffer),
    0 <= start -> start <= len body -> len body - start < Z.of_nat fuel ->
    exists os,
      scan_chain pat body (start + len pat) os /\
      split_loop fuel body pat start acc =
        Some (acc ++ parts_between body pat (start :: os)).
Proof.
  intros Hp. assert (HL : 0 < len pat).
  { destruct pat; [easy|]. rewrite len_cons. pose proof (len_nonneg pat). lia. }
  induction fuel as [|fuel IH]; intros start acc H0 H1 Hf; [lia|].
  simpl. destruct (start =? -1) eqn:E; [lia|].
  destruct (indexOf body pat (start + len pat) =? -1) eqn:En.
  - apply Z.eqb_eq in En. exists []. split.
    + apply chain_end. apply indexOf_none; [lia | easy].
    + now rewrite app_nil_r.
  - apply Z.eqb_neq in En.
    pose proof (indexOf_found body pat (start + len pat) _ ltac:(lia) Hp eq_refl En) as Hn.
    set (next := indexOf body pat (start + len pat)) in *.
    destruct Hn as (Hge & Ho & Hm). pose proof (occurs_at_range _ _ _ Ho) as Hr.
    destruct (IH next (acc ++ [slice body (start + len pat + 2) (next - 2)]))
      as (os & Hc & Hs); [lia | lia | lia |].
    exists (next :: os). split.
    + apply chain_step; [repeat split; assumption | assumption].
    + rewrite Hs, parts_between_cons2, <- app_assoc. reflexivity.
Qed.

(** What [splitParts] returns: the fuel it gives to the loop is enough,
    and the parts are the slices between the occurrences of the scan. *)
Lemma splitParts_chain (body : Buffer) (boundary : jsstring) :
  exists os,
    scan_chain (boundary_marker boundary) body 0 os /\
    splitParts body boundary =
      Some (parts_between body (boundary_marker boundary) os).
Proof.
  unfold splitParts. set (pat := boundary_marker boundary).
  pose proof (boundary_marker_nonempty boundary) as Hp. fold pat in Hp.
  destruct (Z.eq_dec (indexOf body pat 0) (-1)) as [E|E].
  - exists []. split.
    + apply chain_end. apply indexOf_none; [lia | easy].
    + rewrite E. reflexivity.
  - pose proof (indexOf_found body pat 0 _ ltac:(lia) Hp eq_refl E) as Hn.
    set (start := indexOf body pat 0) in *.
    pose proof Hn as (Hge & Ho & Hm). pose proof (occurs_at_range _ _ _ Ho) as Hr.
    pose proof (len_nonneg pat).
    destruct (split_loop_chain body pat Hp (S (length body)) start [])
      as (os & Hc & Hs); [lia | lia | unfold len in *; lia |].
    exists (start :: os). split; [now apply chain_step | exact Hs].
Qed.

(** The occurrences of a scan: each one is an occurrence, and the next
    one starts at or after the end of the one before. *)
Lemma scan_chain_pairs {A : Type} (pat s : list A) (from : Z) (os : list Z) :
  scan_chain pat s from os ->
  forall a b, In (a, b) (consecutive_pairs os) ->
    occurs_at pat s a /\ occurs_at pat s b /\ from <= a /\ a + len pat <= b.
Proof.
  induction 1 as [from Hn | from o os Hf Hc IH]; intros a b Hin; [easy|].
  destruct os as [|o' os']; [easy|].
  destruct Hin as [[= <- <-]|Hin].
  - inversion Hc as [|? ? ? Hf' Hc']; subst.
    destruct Hf as (? & ? & ?), Hf' as (? & ? & ?). easy.
  - destruct (IH a b Hin) as (? & ? & ? & ?). destruct Hf as (? & ? & ?).
    pose proof (len_nonneg pat). repeat split; try assumption; lia.
Qed.

Lemma scan_chain_In {A : Type} (pat s : list A) (from : Z) (os : list Z) :
  scan_chain pat s from os -> forall o, In o os -> occurs_at pat s o /\ from <= o.
Proof.
  induction 1 as [from Hn | from o os Hf Hc IH]; intros x Hin; [easy|].
  destruct Hf as (Hge & Ho & Hm). destruct Hin as [<-|Hin]; [easy|].
  destruct (IH x Hin) as (? & ?). pose proof (len_nonneg pat). split; [easy | lia].
Qed.

(** The scan is deterministic. *)
Lemma scan_chain_unique {A : Type} (pat s : list A) (from : Z) (os os' : list Z) :
  scan_chain pat s from os -> scan_chain pat s from os' -> os = os'.
Proof.
  intros H. revert os'. induction H as [from Hn | from o os Hf Hc IH]; intros os' H'.
  - inversion H' as [|? o' ? Hf' ?]; subst; [easy|].
    destruct Hf' as (Hge & Ho & _). now destruct (Hn o').
  - inversion H' as [? Hn'|? o' os'' Hf' Hc']; subst.
    + destruct Hf as (Hge & Ho & _). now destruct (Hn' o).
    + pose proof (first_occ_from_unique _ _ _ _ _ Hf Hf') as <-.
      f_equal. now apply IH.
Qed.

(** Every occurrence at or after the start of the scan is found, or
    starts inside an occurrence that is found. *)
Lemma scan_chain_covers {A : Type} (pat s : list A) (from : Z) (os : list Z) :
  scan_chain pat s from os ->
  forall i, from <= i -> occurs_at pat s i ->
    In i os \/ exists o, In o os /\ o < i < o + len pat.
Proof.
  induction 1 as [from Hn | from o os Hf Hc IH]; intros i Hi Ho.
  - now destruct (Hn i).
  - destruct Hf as (Hge & Hoo & Hm).
    destruct (Z_lt_le_dec i o) as [Hlt|Hle]; [now destruct (Hm i)|].
    destruct (Z.eq_dec i o) as [->|Hne]; [left; now left|].
    destruct (Z_lt_le_dec i (o + len pat)) as [Hin|Hout].
    + right. exists o. split; [now left | lia].
    + destruct (IH i Hout Ho) as [Hi'|(o' & Ho' & Hr)].
      * left. now right.
      * right. exists o'. split; [now right | exact Hr].
Qed.

(** [all_occurrences] lists the occurrences. *)
Lemma all_occurrences_spec (marker body : Buffer) (i : Z) :
  In i (all_occurrences marker body) <-> occurs_at marker body i.
Proof.
  unfold all_occurrences. rewrite filter_In, in_map_iff. split.
  - intros ((n & <- & Hn) & Hp). apply in_seq in Hn.
    rewrite Nat2Z.id in Hp. apply (prefixb_occurs _ byte_eqb_eq) in Hp.
    apply (occurs_at_skipn marker body n 0) in Hp; [|lia|lia].
    now rewrite Z.add_0_r in Hp.
  - intros Ho. pose proof (occurs_at_range _ _ _ Ho) as (H0 & Hr).
    pose proof (len_nonneg marker). unfold len in Hr.
    assert (Hn : (Z.to_nat i <= length body)%nat) by lia. split.
    + exists (Z.to_nat i). split; [lia|]. apply in_seq. lia.
    + apply (prefixb_occurs _ byte_eqb_eq).
      apply (occurs_at_skipn marker body (Z.to_nat i) 0 Hn); [lia|].
      now replace (Z.of_nat (Z.to_nat i) + 0) with i by lia.
Qed.

(** ** The decoder leaves ASCII bytes in place *)

Lemma utf8_lead_ascii (n : N) : (n <= 0x7F)%N -> utf8_lead n = ([n], Utf8Start).
Proof. intros H. unfold utf8_lead. apply N.leb_le in H. now rewrite H. Qed.

Lemma utf8_lead_ok (n : N) : utf8_state_ok (snd (utf8_lead n)).
Proof.
  unfold utf8_lead.
  repeat match goal with
         | |- context [if ?c then _ else _] => destruct c
         end; simpl; try exact I; lia.
Qed.

(** An ASCII byte ends whatever sequence is open and stands for itself. *)
Lemma utf8_step_ascii (st : utf8_state) (n : N) :
  (n <= 0x7F)%N -> utf8_state_ok st ->
  utf8_step st n = (utf8_flush st ++ [n], Utf8Start).
Proof.
  intros Hn Hst. destruct st as [|cp needed lower upper]; simpl.
  - now apply utf8_lead_ascii.
  - simpl in Hst. destruct (lower <=? n)%N eqn:E; [apply N.leb_le in E; lia|].
    simpl. now rewrite (utf8_lead_ascii _ Hn).
Qed.

Lemma utf8_step_ok (st : utf8_state) (n : N) :
  utf8_state_ok (snd (utf8_step st n)).
Proof.
  destruct st as [|cp needed lower upper]; simpl; [apply utf8_lead_ok|].
  destruct ((lower <=? n)%N && (n <=? upper)%N).
  - destruct needed; simpl; [exact I | lia].
  - pose proof (utf8_lead_ok n). now destruct (utf8_lead n).
Qed.

Lemma utf8_decode_ascii_app (a : byte) (rest : Buffer) :
  is_ascii a ->
  forall (pre : Buffer) (st : utf8_state),
    utf8_state_ok st ->
    utf8_decode st (pre ++ a :: rest) =
    utf8_decode st pre ++ Byte.to_N a :: utf8_decode Utf8Start rest.
Proof.
  intros Ha. induction pre as [|b pre IH]; intros st Hst.
  - simpl. rewrite (utf8_step_ascii st _ Ha Hst). now rewrite <- app_assoc.
  - simpl. pose proof (utf8_step_ok st (Byte.to_N b)) as Hs.
    destruct (utf8_step st (Byte.to_N b)) as [out st']. simpl in Hs.
    rewrite (IH st' Hs). now rewrite app_assoc.
Qed.

Lemma utf8_decode_ascii_word (w rest : Buffer) :
  Forall is_ascii w ->
  utf8_decode Utf8Start (w ++ rest) = map Byte.to_N w ++ utf8_decode Utf8Start rest.
Proof.
  induction 1 as [|a w Ha Hw IH]; [reflexivity|].
  simpl. rewrite (utf8_lead_ascii _ Ha). simpl. now rewrite IH.
Qed.

(** The text of a buffer in which an ASCII word stands. *)
Lemma toString_utf8_ascii_mid (pre w post : Buffer) :
  w <> [] -> Forall is_ascii w ->
  toString_utf8 (pre ++ w ++ post) =
  toString_utf8 pre ++ map Byte.to_N w ++ toString_utf8 post.
Proof.
  intros Hne Hw. destruct w as [|a w]; [easy|]. inversion Hw as [|? ? Ha Hw']; subst.
  unfold toString_utf8. simpl app.
  rewrite (utf8_decode_ascii_app a (w ++ post) Ha pre Utf8Start I).
  now rewrite (utf8_decode_ascii_word w post Hw').
Qed.

(** ** An ASCII word in the text comes from the buffer *)

Ltac lia_mod := zify; Z.to_euclidean_division_equations; lia.

Lemma N_lor_add (a b : N) : N.lor a b = (a + N.ldiff b a)%N.
Proof.
  rewrite N.add_nocarry_lxor.
  - rewrite N.lxor_lor.
    + apply N.bits_inj; intro k. rewrite !N.lor_spec, N.ldiff_spec.
      destruct (N.testbit a k), (N.testbit b k); reflexivity.
    + apply N.bits_inj; intro k. rewrite N.land_spec, N.ldiff_spec, N.bits_0.
      destruct (N.testbit a k), (N.testbit b k); reflexivity.
  - apply N.bits_inj; intro k. rewrite N.land_spec, N.ldiff_spec, N.bits_0.
    destruct (N.testbit a k), (N.testbit b k); reflexivity.
Qed.

Lemma N_lor_lower_l (a b : N) : (a <= N.lor a b)%N.
Proof. rewrite N_lor_add. lia. Qed.

Lemma N_lor_lower_r (a b : N) : (b <= N.lor a b)%N.
Proof. rewrite N.lor_comm. apply N_lor_lower_l. Qed.

Lemma N_land_low (n k : N) : N.land n (N.ones k) = (n mod 2 ^ k)%N.
Proof. apply N.land_ones. Qed.

Lemma utf8_state_good_ok (st : utf8_state) : utf8_state_good st -> utf8_state_ok st.
Proof. destruct st; simpl; tauto. Qed.

Lemma utf8_lead_good (n : N) : utf8_state_good (snd (utf8_lead n)).
Proof.
  unfold utf8_lead.
  destruct (n <=? 0x7F)%N; [exact I|].
  destruct ((0xC2 <=? n) && (n <=? 0xDF))%N eqn:E2.
  { apply andb_true_iff in E2. destruct E2 as (A & B).
    apply N.leb_le in A, B. simpl. split; [lia|]. split; [lia|].
    change 0x1F%N with (N.ones 5). rewrite N_land_low. change (2 ^ 5)%N with 32%N. lia_mod. }
  destruct ((0xE0 <=? n) && (n <=? 0xEF))%N eqn:E3.
  { apply andb_true_iff in E3. destruct E3 as (A & B).
    apply N.leb_le in A, B. simpl.
    split; [destruct (n =? 0xE0)%N; lia|]. split; [destruct (n =? 0xED)%N; lia|].
    destruct (n =? 0xE0)%N eqn:E; [right; lia|]. apply N.eqb_neq in E. left.
    change 0xF%N with (N.ones 4). rewrite N_land_low. change (2 ^ 4)%N with 16%N. lia_mod. }
  destruct ((0xF0 <=? n) && (n <=? 0xF4))%N eqn:E4.
  { apply andb_true_iff in E4. destruct E4 as (A & B).
    apply N.leb_le in A, B. simpl.
    split; [destruct (n =? 0xF0)%N; lia|]. split; [destruct (n =? 0xF4)%N; lia|].
    destruct (n =? 0xF0)%N eqn:E; [right; lia|]. apply N.eqb_neq in E. left.
    change 0x7%N with (N.ones 3). rewrite N_land_low. change (2 ^ 3)%N with 8%N. lia_mod. }
  exact I.
Qed.

Lemma utf8_lead_out (n : N) : (0x80 <= n)%N -> Forall non_ascii (fst (utf8_lead n)).
Proof.
  intros H. unfold utf8_lead.
  destruct (n <=? 0x7F)%N eqn:E; [apply N.leb_le in E; lia|].
  repeat match goal with
         | |- context [if ?c then _ else _] => destruct c
         end; simpl; repeat constructor. unfold non_ascii, REPLACEMENT. lia.
Qed.

Lemma utf16_of_code_point_out (cp : N) :
  (0x80 <= cp)%N -> Forall non_ascii (utf16_of_code_point cp).
Proof.
  intros H. unfold utf16_of_code_point. destruct (cp <? 0x10000)%N.
  - repeat constructor. exact H.
  - repeat constructor; unfold non_ascii; lia.
Qed.

Lemma continuation_low (n : N) :
  (0x82 <= n)%N -> (n <= 0xBF)%N -> (2 <= N.land n 0x3F)%N.
Proof.
  intros A B. change 0x3F%N with (N.ones 6). rewrite N_land_low.
  change (2 ^ 6)%N with 64%N. lia_mod.
Qed.

Lemma extend_lower (cp n : N) :
  (cp * 64 <= N.lor (N.shiftl cp 6) (N.land n 0x3F))%N /\
  (N.land n 0x3F <= N.lor (N.shiftl cp 6) (N.land n 0x3F))%N.
Proof.
  split; [|apply N_lor_lower_r].
  change (cp * 64)%N with (cp * 2 ^ 6)%N.
  rewrite <- (N.shiftl_mul_pow2 cp 6). apply N_lor_lower_l.
Qed.

Lemma utf8_step_good (st : utf8_state) (n : N) :
  utf8_state_good st -> utf8_state_good (snd (utf8_step st n)).
Proof.
  destruct st as [|cp needed lower upper]; simpl; [intros _; apply utf8_lead_good|].
  intros (Hl & Hu & Hc).
  destruct ((lower <=? n)%N && (n <=? upper)%N) eqn:E.
  - apply andb_true_iff in E. destruct E as (A & B). apply N.leb_le in A, B.
    destruct (extend_lower cp n) as (E1 & E2).
    destruct needed as [|[|needed]]; simpl; [exact I | |].
    + split; [lia|]. split; [lia|]. destruct Hc as [Hc|Hc]; [lia|].
      pose proof (continuation_low n ltac:(lia) ltac:(lia)). lia.
    + split; [lia|]. split; [lia|]. left. destruct Hc as [Hc|Hc]; [lia|].
      pose proof (continuation_low n ltac:(lia) ltac:(lia)). lia.
  - pose proof (utf8_lead_good n). now destruct (utf8_lead n).
Qed.

Lemma utf8_step_out (st : utf8_state) (n : N) :
  utf8_state_good st -> (0x80 <= n)%N -> Forall non_ascii (fst (utf8_step st n)).
Proof.
  intros Hst Hn. destruct st as [|cp needed lower upper]; simpl; [now apply utf8_lead_out|].
  destruct Hst as (Hl & Hu & Hc).
  destruct ((lower <=? n)%N && (n <=? upper)%N) eqn:E.
  - destruct needed as [|needed]; simpl; [|constructor].
    apply utf16_of_code_point_out. destruct (extend_lower cp n) as (E1 & _). lia.
  - pose proof (utf8_lead_out n Hn). destruct (utf8_lead n) as [out st']. simpl in *.
    constructor; [unfold non_ascii, REPLACEMENT; lia | assumption].
Qed.

Lemma utf8_flush_out (st : utf8_state) : Forall non_ascii (utf8_flush st).
Proof. destruct st; simpl; repeat constructor. unfold non_ascii, REPLACEMENT. lia. Qed.

(** A step that writes nothing leaves a sequence open. *)
Lemma utf8_step_silent (st : utf8_state) (n : N) :
  fst (utf8_step st n) = [] -> snd (utf8_step st n) <> Utf8Start.
Proof.
  destruct st as [|cp needed lower upper]; simpl.
  - unfold utf8_lead.
    repeat match goal with
           | |- context [if ?c then _ else _] => destruct c
           end; simpl; congruence.
  - destruct ((lower <=? n)%N && (n <=? upper)%N).
    + destruct needed; simpl; [|congruence].
      unfold utf16_of_code_point. now destruct (_ <? _)%N.
    + now destruct (utf8_lead n).
Qed.

Lemma byte_to_N_inj (x y : byte) : Byte.to_N x = Byte.to_N y -> x = y.
Proof.
  intros H. pose proof (Byte.of_to_N x) as Hx. rewrite H, Byte.of_to_N in Hx.
  congruence.
Qed.

Lemma utf8_decode_cons (st : utf8_state) (b : byte) (bs : Buffer) :
  utf8_decode st (b :: bs) =
  fst (utf8_step st (Byte.to_N b)) ++ utf8_decode (snd (utf8_step st (Byte.to_N b))) bs.
Proof. simpl. now destruct (utf8_step st (Byte.to_N b)). Qed.

(** The text starts with an ASCII character only when the decoder is
    between two characters and the buffer starts with that character. *)
Lemma utf8_decode_ascii_head (bs : Buffer) :
  forall (st : utf8_state) (a : N) (rest : jsstring),
    utf8_state_good st -> (a <= 0x7F)%N ->
    utf8_decode st bs = a :: rest ->
    st = Utf8Start /\
    exists b bs', bs = b :: bs' /\ Byte.to_N b = a /\ rest = utf8_decode Utf8Start bs'.
Proof.
  induction bs as [|b bs IH]; intros st a rest Hst Ha E.
  - pose proof (utf8_flush_out st) as Hf. simpl in E. rewrite E in Hf.
    inversion Hf as [|? ? Hn _]; subst. unfold non_ascii in Hn. lia.
  - rewrite utf8_decode_cons in E.
    destruct (N.le_gt_cases (Byte.to_N b) 0x7F) as [Hb|Hb].
    + rewrite (utf8_step_ascii st _ Hb (utf8_state_good_ok _ Hst)) in E. simpl in E.
      destruct st as [|cp needed lower upper]; simpl in E.
      * injection E as <- <-. split; [reflexivity|]. now exists b, bs.
      * injection E as <- _. unfold REPLACEMENT in Ha. lia.
    + pose proof (utf8_step_out st (Byte.to_N b) Hst ltac:(lia)) as Ho.
      pose proof (utf8_step_good st (Byte.to_N b) Hst) as Hg.
      pose proof (utf8_step_silent st (Byte.to_N b)) as Hs.
      destruct (utf8_step st (Byte.to_N b)) as [[|c out] st']; simpl in *.
      * destruct (IH st' a rest Hg Ha E) as (-> & _). now destruct Hs.
      * injection E as <- _. inversion Ho as [|? ? Hn _]; subst.
        unfold non_ascii in Hn. lia.
Qed.

(** An ASCII word at the start of the text is at the start of the
    buffer. *)
Lemma utf8_decode_ascii_prefix (w : Buffer) :
  Forall is_ascii w ->
  forall (bs : Buffer) (rest : jsstring),
    utf8_decode Utf8Start bs = map Byte.to_N w ++ rest ->
    exists bs', bs = w ++ bs' /\ rest = utf8_decode Utf8Start bs'.
Proof.
  induction 1 as [|a w Ha Hw IH]; intros bs rest E.
  - now exists bs.
  - simpl in E.
    destruct (utf8_decode_ascii_head bs Utf8Start _ _ I Ha E) as (_ & b & bs' & -> & Hb & E').
    apply byte_to_N_inj in Hb. subst b. symmetry in E'.
    destruct (IH bs' rest E') as (bs'' & -> & ->). now exists bs''.
Qed.

(** An occurrence of an ASCII word in the text of a buffer comes from
    an occurrence of the word in the buffer, and stands where the text
    of what precedes it ends. *)
Lemma utf8_decode_occurrence (a : byte) (w : Buffer) :
  is_ascii a -> Forall is_ascii w ->
  forall (bs : Buffer) (st : utf8_state) (i : Z),
    utf8_state_good st ->
    occurs_at (map Byte.to_N (a :: w)) (utf8_decode st bs) i ->
    exists pre post, bs = pre ++ (a :: w) ++ post /\ len (utf8_decode st pre) = i.
Proof.
  intros Ha Hw. induction bs as [|b bs IH]; intros st i Hst (tpre & tpost & E & <-).
  - exfalso. pose proof (utf8_flush_out st) as Hf. simpl in E. rewrite E in Hf.
    apply Forall_app in Hf. destruct Hf as (_ & Hf). simpl in Hf.
    inversion Hf as [|? ? Hn _]; subst. unfold non_ascii, is_ascii in *. lia.
  - rewrite utf8_decode_cons in E.
    pose proof (utf8_step_good st (Byte.to_N b) Hst) as Hg.
    remember (fst (utf8_step st (Byte.to_N b))) as out eqn:Eout.
    remember (snd (utf8_step st (Byte.to_N b))) as st' eqn:Est.
    apply app_eq_app in E. destruct E as (l & [(E1 & E2)|(E1 & E2)]).
    + (* the occurrence starts inside what the first byte writes *)
      destruct l as [|x l].
      * rewrite app_nil_r in E1. simpl in E2. subst tpre.
        destruct (IH st' 0 Hg) as (pre & post & -> & Hl).
        { exists [], tpost. split; [now rewrite <- E2 | reflexivity]. }
        exists (b :: pre), post. split; [reflexivity|].
        rewrite utf8_decode_cons, <- Eout, <- Est, len_app. lia.
      * simpl in E2. injection E2 as <- E2.
        destruct (N.le_gt_cases (Byte.to_N b) 0x7F) as [Hb|Hb].
        -- rewrite (utf8_step_ascii st _ Hb (utf8_state_good_ok _ Hst)) in Eout, Est.
           simpl in Eout, Est. subst st'.
           assert (Hx : tpre = utf8_flush st /\ Byte.to_N a = Byte.to_N b /\ l = []).
           { destruct st as [|cp needed lower upper]; simpl in Eout; subst out.
             - destruct tpre as [|t tpre]; simpl in E1.
               + injection E1 as E1a E1b. subst l. repeat split; congruence.
               + injection E1 as _ E1. destruct tpre; discriminate E1.
             - destruct tpre as [|t tpre]; simpl in E1.
               + injection E1 as E1 _. unfold is_ascii, REPLACEMENT in *. lia.
               + injection E1 as <- E1. destruct tpre as [|t' tpre]; simpl in E1.
                 * injection E1 as E1a E1b. subst l. repeat split; congruence.
                 * injection E1 as _ E1. destruct tpre; discriminate E1. }
           destruct Hx as (-> & Hab & ->). apply byte_to_N_inj in Hab. subst b.
           simpl in E2.
           destruct (utf8_decode_ascii_prefix w Hw bs tpost (eq_sym E2)) as (bs' & -> & _).
           exists [], bs'. split; reflexivity.
        -- exfalso. pose proof (utf8_step_out st (Byte.to_N b) Hst ltac:(lia)) as Ho.
           rewrite <- Eout, E1 in Ho. apply Forall_app in Ho. destruct Ho as (_ & Ho).
           inversion Ho as [|? ? Hn _]; subst. unfold non_ascii, is_ascii in *. lia.
    + (* the occurrence starts after what the first byte writes *)
      destruct (IH st' (len l) Hg) as (pre & post & -> & Hl).
      { exists l, tpost. split; [exact E2 | reflexivity]. }
      exists (b :: pre), post. split; [reflexivity|].
      change ((b :: pre)) with (b :: pre).
      rewrite utf8_decode_cons, <- Eout, <- Est, E1, !len_app. lia.
Qed.

(** The first occurrence of an ASCII word in a buffer is its first
    occurrence in the text of the buffer. *)
Lemma first_occ_text_of_bytes (a : byte) (w h1 rest : Buffer) :
  is_ascii a -> Forall is_ascii w ->
  first_occ_from (a :: w) (h1 ++ (a :: w) ++ rest) 0 (len h1) ->
  first_occ_from (map Byte.to_N (a :: w))
                 (toString_utf8 (h1 ++ (a :: w) ++ rest)) 0 (len (toString_utf8 h1)).
Proof.
  intros Ha Hw (_ & _ & Hm). split; [apply len_nonneg|].
  assert (Ht : toString_utf8 (h1 ++ (a :: w) ++ rest) =
               toString_utf8 h1 ++ map Byte.to_N (a :: w) ++ toString_utf8 rest).
  { apply toString_utf8_ascii_mid; [discriminate | now constructor]. }
  split; [rewrite Ht; apply occurs_at_mid|].
  intros i Hi0 Hi Ho.
  destruct (utf8_decode_occurrence a w Ha Hw _ Utf8Start i I Ho) as (pre & post & E & Hl).
  assert (Hge : len h1 <= len pre).
  { destruct (Z_lt_le_dec (len pre) (len h1)) as [Hlt|Hge]; [|exact Hge].
    exfalso. apply (Hm (len pre)); [apply len_nonneg | exact Hlt |].
    rewrite E. apply occurs_at_mid. }
  apply app_eq_app in E. destruct E as (l & [(E1 & E2)|(E1 & E2)]).
  - assert (l = []) as ->.
    { apply len_nil_inv. rewrite E1, len_app in Hge. pose proof (len_nonneg l). lia. }
    rewrite app_nil_r in E1. subst pre. unfold toString_utf8 in Hi. lia.
  - destruct l as [|x l].
    + rewrite app_nil_r in E1. subst pre. unfold toString_utf8 in Hi. lia.
    + simpl in E2. injection E2 as <- E2. subst pre.
      rewrite (utf8_decode_ascii_app a l Ha h1 Utf8Start I), len_app, len_cons in Hl.
      pose proof (len_nonneg (utf8_decode Utf8Start l)).
      unfold toString_utf8 in Hi. lia.
Qed.

(** ** The two regular expressions *)

Lemma match_boundary_cons (c : N) (s : jsstring) :
  match_boundary (c :: s) =
  match strip_prefix N.eqb lit_boundary (c :: s) with
  | Some rest => if no_line_terminator rest then Some rest else match_boundary s
  | None => match_boundary s
  end.
Proof. reflexivity. Qed.

Lemma match_filename_cons (c : N) (s : jsstring) :
  match_filename (c :: s) =
  match match_filename_here (c :: s) with
  | Some name => Some name
  | None => match_filename s
  end.
Proof. reflexivity. Qed.

Lemma first_occ_cons {A : Type} (pat s : list A) (c : A) (i : Z) :
  0 <= i ->
  first_occ_from pat (c :: s) 0 (i + 1) ->
  ~ occurs_at pat (c :: s) 0 /\ first_occ_from pat s 0 i.
Proof.
  intros Hi (_ & Ho & Hm). split; [apply Hm; lia|].
  split; [lia|]. split; [now apply (occurs_at_cons pat s c)|].
  intros j Hj1 Hj2 Hc. apply (Hm (j + 1)); [lia | lia |].
  now apply occurs_at_cons.
Qed.

Lemma no_occ_cons {A : Type} (pat s : list A) (c : A) :
  no_occ_from pat (c :: s) 0 ->
  ~ occurs_at pat (c :: s) 0 /\ no_occ_from pat s 0.
Proof.
  intros H. split; [apply H; lia|]. intros j Hj Hc.
  apply (H (j + 1)); [lia|]. now apply occurs_at_cons.
Qed.

(** [getBoundary]'s expression, when nothing after the first
    [boundary=] is a line terminator: the group is all that follows. *)
Lemma match_boundary_first (pre rest : jsstring) :
  first_occ_from lit_boundary (pre ++ lit_boundary ++ rest) 0 (len pre) ->
  no_line_terminator rest = true ->
  match_boundary (pre ++ lit_boundary ++ rest) = Some rest.
Proof.
  intros Hf Hr. induction pre as [|c pre IH].
  - change ([] ++ lit_boundary ++ rest) with (lit_boundary ++ rest).
    assert (E : strip_prefix N.eqb lit_boundary (lit_boundary ++ rest) = Some rest)
      by now apply (strip_prefix_Some _ N.eqb_eq).
    change (lit_boundary ++ rest) with (98%N :: tl lit_boundary ++ rest) in *.
    rewrite match_boundary_cons, E, Hr. reflexivity.
  - change ((c :: pre) ++ lit_boundary ++ rest) with (c :: (pre ++ lit_boundary ++ rest)) in *.
    rewrite len_cons in Hf. apply first_occ_cons in Hf; [|apply len_nonneg].
    destruct Hf as (Hn & Hf). apply (strip_prefix_None _ N.eqb_eq) in Hn.
    rewrite match_boundary_cons, Hn. now apply IH.
Qed.

Lemma match_boundary_none (s : jsstring) :
  no_occ_from lit_boundary s 0 -> match_boundary s = None.
Proof.
  induction s as [|c s IH]; intros H; [reflexivity|].
  apply no_occ_cons in H. destruct H as (Hn & H).
  apply (strip_prefix_None _ N.eqb_eq) in Hn.
  rewrite match_boundary_cons, Hn. now apply IH.
Qed.

(** In general the group is what follows the first [boundary=] after
    which there is no line terminator. *)
Lemma match_boundary_Some (s rest : jsstring) :
  match_boundary s = Some rest <->
  exists pre, s = pre ++ lit_boundary ++ rest /\
              no_line_terminator rest = true /\
              forall pre' rest', s = pre' ++ lit_boundary ++ rest' ->
                                 len pre' < len pre ->
                                 no_line_terminator rest' = false.
Proof.
  revert rest. induction s as [|c s IH]; intros rest.
  - split; [easy|]. intros (pre & E & _). destruct pre; discriminate E.
  - rewrite match_boundary_cons.
    destruct (strip_prefix N.eqb lit_boundary (c :: s)) as [r|] eqn:E.
    + apply (strip_prefix_Some _ N.eqb_eq) in E.
      destruct (no_line_terminator r) eqn:Er.
      * split.
        -- intros [= <-]. exists []. split; [easy|]. split; [easy|].
           intros pre' rest' _ Hl. pose proof (len_nonneg pre'). unfold len in Hl at 2. simpl in Hl. lia.
        -- intros (pre & E' & Hr & Hm). destruct pre as [|p pre].
           ++ rewrite E, app_nil_l in E'. apply app_inv_head in E'. now subst.
           ++ specialize (Hm [] r E). rewrite len_cons in Hm.
              pose proof (len_nonneg pre). unfold len at 1 in Hm. simpl in Hm.
              rewrite Hm in Er by lia. discriminate.
      * rewrite IH. split.
        -- intros (pre & -> & Hr & Hm). exists (c :: pre). split; [easy|]. split; [easy|].
           intros pre' rest' E' Hl. destruct pre' as [|p' pre'].
           ++ rewrite E, app_nil_l in E'. apply app_inv_head in E'. now subst.
           ++ injection E' as <- E'. apply (Hm pre' rest' E'). rewrite !len_cons in Hl. lia.
        -- intros (pre & E' & Hr & Hm). destruct pre as [|p pre].
           ++ rewrite E, app_nil_l in E'. apply app_inv_head in E'. subst. congruence.
           ++ injection E' as <- ->. exists pre. split; [easy|]. split; [easy|].
              intros pre' rest' E' Hl. apply (Hm (c :: pre') rest').
              ** now rewrite E'.
              ** rewrite !len_cons. lia.
    + apply (strip_prefix_None _ N.eqb_eq) in E. rewrite IH. split.
      * intros (pre & -> & Hr & Hm). exists (c :: pre). split; [easy|]. split; [easy|].
        intros pre' rest' E' Hl. destruct pre' as [|p' pre'].
        -- exfalso. apply E. rewrite E'. exact (occurs_at_mid [] lit_boundary _).
        -- injection E' as <- E'. apply (Hm pre' rest' E'). rewrite !len_cons in Hl. lia.
      * intros (pre & E' & Hr & Hm). destruct pre as [|p pre].
        -- exfalso. apply E. rewrite E'. exact (occurs_at_mid [] lit_boundary _).
        -- injection E' as <- ->. exists pre. split; [easy|]. split; [easy|].
           intros pre' rest' E' Hl. apply (Hm (c :: pre') rest').
           ++ now rewrite E'.
           ++ rewrite !len_cons. lia.
Qed.

Lemma until_quote_app (cap t2 : jsstring) :
  no_line_terminator cap = true -> ~ In QUOTE cap ->
  until_quote (cap ++ QUOTE :: t2) = Some cap.
Proof.
  induction cap as [|c cap IH]; intros Hl Hq; [reflexivity|].
  simpl in *. apply andb_true_iff in Hl. destruct Hl as (Hc & Hl).
  destruct (c =? QUOTE)%N eqn:E; [apply N.eqb_eq in E; subst; tauto|].
  apply negb_true_iff in Hc. rewrite Hc, IH; [reflexivity | assumption | tauto].
Qed.

Lemma until_quote_Some (s cap : jsstring) :
  until_quote s = Some cap ->
  exists t2, s = cap ++ QUOTE :: t2 /\ no_line_terminator cap = true /\ ~ In QUOTE cap.
Proof.
  revert cap. induction s as [|c s IH]; intros cap; simpl; [easy|].
  destruct (c =? QUOTE)%N eqn:E.
  - apply N.eqb_eq in E. subst c. intros [= <-]. now exists s.
  - destruct (isLineTerminator c) eqn:El; [easy|].
    destruct (until_quote s) as [r|]; [|easy]. intros [= <-].
    destruct (IH r eq_refl) as (t2 & -> & Hl & Hq). exists t2.
    split; [reflexivity|]. split; [simpl; now rewrite El|].
    intros [->|Hin]; [now rewrite N.eqb_refl in E | tauto].
Qed.

Lemma match_filename_here_Some (s cap : jsstring) :
  match_filename_here s = Some cap <->
  exists t2, s = lit_filename ++ cap ++ QUOTE :: t2 /\ is_capture cap.
Proof.
  unfold match_filename_here. split.
  - destruct (strip_prefix N.eqb lit_filename s) as [[|c rest]|] eqn:E; [easy| |easy].
    apply (strip_prefix_Some _ N.eqb_eq) in E.
    destruct (isLineTerminator c) eqn:El; [easy|].
    destruct (until_quote rest) as [r|] eqn:Eu; [|easy]. intros [= <-].
    apply until_quote_Some in Eu. destruct Eu as (t2 & -> & Hl & Hq).
    exists t2. split; [assumption|]. split; [easy|]. split; [simpl; now rewrite El | assumption].
  - intros (t2 & -> & Hne & Hl & Hq). destruct cap as [|c cap]; [easy|].
    assert (E : strip_prefix N.eqb lit_filename (lit_filename ++ (c :: cap) ++ QUOTE :: t2)
                = Some ((c :: cap) ++ QUOTE :: t2)) by now apply (strip_prefix_Some _ N.eqb_eq).
    rewrite E. simpl in *. apply andb_true_iff in Hl. destruct Hl as (Hc & Hl).
    apply negb_true_iff in Hc. rewrite Hc. now rewrite until_quote_app.
Qed.

Lemma match_filename_here_None (s : jsstring) :
  ~ occurs_at lit_filename s 0 -> match_filename_here s = None.
Proof.
  intros H. unfold match_filename_here.
  apply (strip_prefix_None _ N.eqb_eq) in H. now rewrite H.
Qed.

(** The [filename] expression, when its literal first occurs in front
    of a text that the group can hold and a quote: the group is that
    text. *)
Lemma match_filename_first (t1 cap t2 : jsstring) :
  first_occ_from lit_filename (t1 ++ lit_filename ++ cap ++ QUOTE :: t2) 0 (len t1) ->
  is_capture cap ->
  match_filename (t1 ++ lit_filename ++ cap ++ QUOTE :: t2) = Some cap.
Proof.
  intros Hf Hc. induction t1 as [|c t1 IH].
  - rewrite app_nil_l.
    assert (E : match_filename_here (lit_filename ++ cap ++ QUOTE :: t2) = Some cap).
    { apply match_filename_here_Some. now exists t2. }
    change (lit_filename ++ cap ++ QUOTE :: t2)
      with (102%N :: tl lit_filename ++ cap ++ QUOTE :: t2) in *.
    now rewrite match_filename_cons, E.
  - change ((c :: t1) ++ lit_filename ++ cap ++ QUOTE :: t2)
      with (c :: (t1 ++ lit_filename ++ cap ++ QUOTE :: t2)) in *.
    rewrite len_cons in Hf. apply first_occ_cons in Hf; [|apply len_nonneg].
    destruct Hf as (Hn & Hf). apply match_filename_here_None in Hn.
    rewrite match_filename_cons, Hn. now apply IH.
Qed.

(** What the expression returns is always the group of a match: the
    text between the literal and a quote. *)
Lemma match_filename_Some (s cap : jsstring) :
  match_filename s = Some cap ->
  exists t1 t2, s = t1 ++ lit_filename ++ cap ++ QUOTE :: t2 /\ is_capture cap.
Proof.
  induction s as [|c s IH]; [easy|]. rewrite match_filename_cons.
  destruct (match_filename_here (c :: s)) as [name|] eqn:E.
  - intros [= ->]. apply match_filename_here_Some in E.
    destruct E as (t2 & E & Hc). exists [], t2. now rewrite app_nil_l.
  - intros H. destruct (IH H) as (t1 & t2 & -> & Hc). now exists (c :: t1), t2.
Qed.

Lemma match_filename_none (s : jsstring) :
  no_occ_from lit_filename s 0 -> match_filename s = None.
Proof.
  induction s as [|c s IH]; intros H; [reflexivity|].
  apply no_occ_cons in H. destruct H as (Hn & H).
  rewrite match_filename_cons, (match_filename_here_None _ Hn). now apply IH.
Qed.

(** ** The file selector *)

Lemma scan_parts_skip (l1 l2 : list Buffer) (st : selection) :
  (forall q, In q l1 -> select_part q = None) ->
  scan_parts (l1 ++ l2) st = scan_parts l2 st.
Proof.
  induction l1 as [|q l1 IH]; intros H; [reflexivity|].
  simpl. rewrite (H q) by now left. apply IH. intros; apply H. now right.
Qed.

Lemma scan_parts_hit (p : Buffer) (l2 : list Buffer) (st : selection)
    (name : jsstring) (payload : Buffer) :
  select_part p = Some (name, payload) ->
  scan_parts (p :: l2) st = {| fileBuffer := Some payload; filename := name |}.
Proof. intros H. simpl. now rewrite H. Qed.

Lemma scan_parts_none (l : list Buffer) (st : selection) :
  (forall q, In q l -> select_part q = None) -> scan_parts l st = st.
Proof.
  intros H. rewrite <- (app_nil_r l). now rewrite scan_parts_skip.
Qed.

(** Either the loop leaves the two variables as they were, or it has
    assigned both from the first part that matches. *)
Lemma scan_parts_cases (l : list Buffer) (st : selection) :
  (scan_parts l st = st /\ forall q, In q l -> select_part q = None) \/
  (exists l1 p l2 name payload,
      l = l1 ++ p :: l2 /\
      (forall q, In q l1 -> select_part q = None) /\
      select_part p = Some (name, payload) /\
      scan_parts l st = {| fileBuffer := Some payload; filename := name |}).
Proof.
  induction l as [|p l IH].
  - left. split; [reflexivity | easy].
  - simpl. destruct (select_part p) as [[name payload]|] eqn:E.
    + right. exists [], p, l, name, payload. repeat split; easy.
    + destruct IH as [(Hs & Hn)|(l1 & p' & l2 & name & payload & -> & Hn & Hp & Hs)].
      * left. split; [assumption|]. intros q [<-|Hin]; [assumption | now apply Hn].
      * right. exists (p :: l1), p', l2, name, payload. repeat split; try assumption.
        intros q [<-|Hin]; [assumption | now apply Hn].
Qed.

Lemma select_part_blocks (part : Buffer) :
  select_part part =
  match header_block part with
  | None => None
  | Some h =>
      match match_filename (toString_utf8 h) with
      | Some name => Some (name, payload_block part)
      | None => None
      end
  end.
Proof.
  unfold select_part, header_block, payload_block.
  change (Buffer_from (js CRLFCRLF)) with SEPARATOR.
  now destruct (indexOf part SEPARATOR 0 =? -1).
Qed.

Lemma select_part_declares (part : Buffer) (name : jsstring) :
  declares_filename part name ->
  select_part part = Some (name, payload_block part).
Proof. intros (h & Hh & Hm). now rewrite select_part_blocks, Hh, Hm. Qed.

Lemma select_part_declares_no (part : Buffer) :
  declares_no_filename part <-> select_part part = None.
Proof.
  rewrite select_part_blocks. unfold declares_no_filename. split.
  - intros H. destruct (header_block part) as [h|]; [|reflexivity].
    now rewrite (H h eq_refl).
  - intros H h Hh. rewrite Hh in H.
    now destruct (match_filename (toString_utf8 h)).
Qed.

Lemma select_part_Some (part : Buffer) (name : jsstring) (payload : Buffer) :
  select_part part = Some (name, payload) ->
  declares_filename part name /\ payload = payload_block part.
Proof.
  rewrite select_part_blocks. destruct (header_block part) as [h|] eqn:Hh; [|easy].
  destruct (match_filename (toString_utf8 h)) as [n|] eqn:Hm; [|easy].
  intros [= <- <-]. split; [now exists h | reflexivity].
Qed.

(** A part without separator has no header block. *)
Lemma header_block_no_separator (part : Buffer) :
  indexOf part SEPARATOR 0 = -1 -> header_block part = None.
Proof. intros H. unfold header_block. now rewrite H. Qed.

(** The blocks of a part made of a header block without separator, the
    separator and a payload. *)
Lemma blocks_of_part (h payload : Buffer) :
  first_occ_from SEPARATOR (h ++ SEPARATOR ++ payload) 0 (len h) ->
  header_block (h ++ SEPARATOR ++ payload) = Some h /\
  payload_block (h ++ SEPARATOR ++ payload) = payload.
Proof.
  intros Hf. apply indexOf_first in Hf; [|lia|easy].
  unfold header_block, payload_block. rewrite Hf.
  pose proof (len_nonneg h). destruct (len h =? -1) eqn:E; [lia|]. split.
  - f_equal. apply (slice_exact [] h (SEPARATOR ++ payload)).
  - rewrite app_assoc. replace (len h + 4) with (len (h ++ SEPARATOR)).
    + apply slice_from_exact.
    + rewrite len_app. reflexivity.
Qed.

(** ** The handler *)

Lemma jsstring_eqb_refl (s : jsstring) : jsstring_eqb s s = true.
Proof.
  unfold jsstring_eqb. rewrite Nat.eqb_refl. simpl.
  apply (prefixb_spec _ N.eqb_eq). exists []. now rewrite app_nil_r.
Qed.

(** What the handler does with a POST request when [PROCESSOR_URL] is
    set: the [try] block and its [catch]. *)
Lemma handler_post (fetch : upload -> result downstream) (url : jsstring) (req : request) :
  method req = js "POST" -> url <> [] ->
  handler fetch (Some url) req =
  match try_block fetch url req with
  | None => None
  | Some (w, Ok r) => Some (w, r)
  | Some (w, Throw err) => Some (w, Json 500 "Proxy failed" (Some err))
  end.
Proof.
  intros Hm Hu. unfold handler. rewrite Hm, jsstring_eqb_refl. simpl.
  now destruct url.
Qed.

(** The handler on a POST request with a boundary, in terms of what the
    splitter and the selector extract. *)
Lemma handler_extract (fetch : upload -> result downstream) (url : jsstring)
    (req : request) (ct boundary : jsstring) (st : selection) :
  method req = js "POST" -> url <> [] ->
  content_type req = Some ct -> match_boundary ct = Some boundary -> boundary <> [] ->
  extract (Buffer_concat (chunks req)) boundary = Some st ->
  handler fetch (Some url) req =
  Some (match fileBuffer st with
        | None => ([], Json 400 "No file found in request" None)
        | Some content =>
            ([upload_of url (filename st) content],
             relay (fetch (upload_of url (filename st) content)))
        end).
Proof.
  intros Hm Hu Hc Hb Hne He. rewrite handler_post by assumption.
  unfold try_block, getBoundary. rewrite Hc, Hb. simpl.
  destruct boundary as [|b0 boundary]; [easy|].
  unfold extract in He.
  destruct (splitParts (Buffer_concat (chunks req)) (b0 :: boundary)) as [parts|]; [|easy].
  simpl in He. injection He as <-. simpl. unfold forward.
  destruct (fileBuffer (scan_parts parts initial_selection)) as [content|]; [|reflexivity].
  simpl. unfold upload_of.
  now destruct (fetch _) as [resp|err].
Qed.

(** [extract] always returns: the loop of the splitter ends. *)
Lemma extract_total (body : Buffer) (boundary : jsstring) :
  exists parts, splitParts body boundary = Some parts /\
                extract body boundary = Some (scan_parts parts initial_selection).
Proof.
  destruct (splitParts_chain body boundary) as (os & _ & Hs).
  eexists. split; [exact Hs|]. unfold extract. now rewrite Hs.
Qed.

(** Deciding first occurrences by running the search. *)
Lemma find_from_first {A : Type} (eqb : A -> A -> bool)
    (eqb_eq : forall x y, eqb x y = true <-> x = y) (pat s : list A) (k : nat) (i : Z) :
  find_from eqb pat s 0 = Some k -> Z.of_nat k = i -> first_occ_from pat s 0 i.
Proof.
  intros H <-. apply (find_from_Some eqb eqb_eq) in H.
  now rewrite Nat.sub_0_r in H.
Qed.

Lemma first_occ_by_indexOf (buf value : Buffer) (from i : Z) :
  0 <= from -> value <> [] -> i <> -1 ->
  indexOf buf value from = i -> first_occ_from value buf from i.
Proof. intros. now apply indexOf_found. Qed.

(** *** The boundary resolver *)

(** C4. [getBoundary] returns all that follows the first occurrence of
    [boundary=] in the Content-Type value, up to the end of the value
    and as it is, quotes and later parameters included (what follows
    holds no line terminator, as in any header value); for a value in
    which [boundary=] does not occur it returns null. *)
Theorem getBoundary_first_occurrence (contentType : jsstring) :
  (forall pre rest,
      contentType = pre ++ lit_boundary ++ rest ->
      first_occ_from lit_boundary contentType 0 (len pre) ->
      no_line_terminator rest = true ->
      getBoundary (Some contentType) = Ok (Some rest)) /\
  (no_occ_from lit_boundary contentType 0 ->
   getBoundary (Some contentType) = Ok None).
Proof.
  split.
  - intros pre rest -> Hf Hl. simpl. f_equal. now apply match_boundary_first.
  - intros Hn. simpl. f_equal. now apply match_boundary_none.
Qed.

Lemma getBoundary_first_occurrence_witness :
  getBoundary (Some (js "multipart/form-data; boundary=XYZ123; charset=utf-8"))
    = Ok (Some (js "XYZ123; charset=utf-8")) /\
  getBoundary (Some (js "multipart/form-data")) = Ok None.
Proof.
  split.
  - apply (proj1 (getBoundary_first_occurrence
                    (js "multipart/form-data; boundary=XYZ123; charset=utf-8"))
                 (js "multipart/form-data; ") (js "XYZ123; charset=utf-8") eq_refl).
    + apply (find_from_first N.eqb N.eqb_eq _ _ 21%nat); reflexivity.
    + reflexivity.
  - apply (proj2 (getBoundary_first_occurrence (js "multipart/form-data"))).
    apply (find_from_None N.eqb N.eqb_eq _ _ 0%nat). reflexivity.
Defined.

(** *** The answers to a request without boundary *)

(** A Content-Type value that yields no boundary (no match, or an empty
    group) is answered with 400 and no upload is sent. *)
Lemma handler_no_boundary (fetch : upload -> result downstream) (url : jsstring)
    (req : request) (ct : jsstring) :
  method req = js "POST" -> url <> [] ->
  content_type req = Some ct ->
  match_boundary ct = None \/ match_boundary ct = Some [] ->
  handler fetch (Some url) req = Some ([], Json 400 "Invalid multipart/form-data" None).
Proof.
  intros Hm Hu Hc Hb. rewrite handler_post by assumption.
  unfold try_block, getBoundary. rewrite Hc. simpl.
  now destruct Hb as [-> | ->].
Qed.

(** C5, at the input on which the code departs from it: a POST request
    without Content-Type header. [getBoundary] calls [match] on
    [undefined], the [catch] block answers 500 with "Proxy failed", and
    the 400 of line 36 is not reached. *)
Theorem handler_missing_content_type (fetch : upload -> result downstream)
    (u : N) (url : jsstring) (body : list Buffer) :
  handler fetch (Some (u :: url))
          {| method := js "POST"; content_type := None; chunks := body |}
  = Some ([], Json 500 "Proxy failed" (Some TypeError_match_of_undefined)).
Proof. reflexivity. Qed.

(** *** No file in the request *)

Lemma scan_parts_no_file (parts : list Buffer) :
  (forall q, In q parts -> declares_no_filename q) ->
  scan_parts parts initial_selection = initial_selection.
Proof.
  intros H. apply scan_parts_none. intros q Hq.
  now apply select_part_declares_no, H.
Qed.

Lemma splitParts_no_marker (body : Buffer) (boundary : jsstring) :
  no_occ_from (boundary_marker boundary) body 0 ->
  splitParts body boundary = Some [].
Proof.
  intros H. unfold splitParts.
  rewrite (indexOf_absent _ _ 0); [reflexivity | lia | apply boundary_marker_nonempty | exact H].
Qed.

(** C6. A POST request with a boundary in which no part declares a file
    name is answered with 400 and "No file found in request", and no
    upload is sent; so is a request in whose body the boundary marker
    does not occur, which has no part at all. *)
Theorem handler_no_file_found (fetch : upload -> result downstream) (url : jsstring)
    (req : request) (ct boundary : jsstring) :
  method req = js "POST" -> url <> [] ->
  content_type req = Some ct -> match_boundary ct = Some boundary -> boundary <> [] ->
  (forall parts,
      splitParts (Buffer_concat (chunks req)) boundary = Some parts ->
      (forall q, In q parts -> declares_no_filename q) ->
      handler fetch (Some url) req =
        Some ([], Json 400 "No file found in request" None)) /\
  (no_occ_from (boundary_marker boundary) (Buffer_concat (chunks req)) 0 ->
   splitParts (Buffer_concat (chunks req)) boundary = Some [] /\
   handler fetch (Some url) req =
     Some ([], Json 400 "No file found in request" None)).
Proof.
  intros Hm Hu Hc Hb Hne.
  assert (Hparts : forall parts,
             splitParts (Buffer_concat (chunks req)) boundary = Some parts ->
             (forall q, In q parts -> declares_no_filename q) ->
             handler fetch (Some url) req =
               Some ([], Json 400 "No file found in request" None)).
  { intros parts Hs Hn.
    rewrite (handler_extract fetch url req ct boundary initial_selection) by
        (try assumption; unfold extract; rewrite Hs; simpl; f_equal;
         now apply scan_parts_no_file).
    reflexivity. }
  split; [exact Hparts|].
  intros Hno. pose proof (splitParts_no_marker _ _ Hno) as Hs.
  split; [exact Hs|]. now apply (Hparts [] Hs).
Qed.

(** *** Parts without separator *)

(** C7. A part without separator is passed over: the loop gives, from
    any values of its two variables, what it gives on the same parts
    without that one, and so does the rest of the handler. Nothing in
    the loop can throw. *)
Theorem scan_parts_skips_part_without_separator
    (fetch : upload -> result downstream) (url : jsstring)
    (l1 l2 : list Buffer) (p : Buffer) (st : selection) :
  indexOf p SEPARATOR 0 = -1 ->
  select_part p = None /\
  scan_parts (l1 ++ p :: l2) st = scan_parts (l1 ++ l2) st /\
  forward fetch url (scan_parts (l1 ++ p :: l2) st) =
    forward fetch url (scan_parts (l1 ++ l2) st).
Proof.
  intros H.
  assert (Hp : select_part p = None).
  { rewrite select_part_blocks. now rewrite header_block_no_separator. }
  assert (Hs : scan_parts (l1 ++ p :: l2) st = scan_parts (l1 ++ l2) st).
  { induction l1 as [|q l1 IH]; simpl.
    - now rewrite Hp.
    - destruct (select_part q) as [[name payload]|]; [reflexivity | exact IH]. }
  split; [exact Hp|]. split; [exact Hs | now rewrite Hs].
Qed.

(** *** The first part that declares a file name wins *)

(** The loop stops at the first part that declares a file name. *)
Lemma scan_parts_selects (l1 : list Buffer) (p : Buffer) (name : jsstring) :
  (forall q, In q l1 -> declares_no_filename q) ->
  declares_filename p name ->
  forall (l : list Buffer) (st : selection),
    scan_parts (l1 ++ p :: l) st =
      {| fileBuffer := Some (payload_block p); filename := name |}.
Proof.
  intros Hn Hp l st. rewrite scan_parts_skip.
  - apply scan_parts_hit. now apply select_part_declares.
  - intros q Hq. now apply select_part_declares_no, Hn.
Qed.

(** C3. When no part before [p] declares a file name and [p] declares
    [name], the selector returns [name] and the payload of [p], whatever
    comes after [p]: later parts are not looked at. With [l1] of one
    part and [l2] of one part that declares a file name too, this is the
    body of three parts of the specification. *)
Theorem scan_parts_first_match (l1 l2 : list Buffer) (p : Buffer)
    (name : jsstring) (st : selection) :
  (forall q, In q l1 -> declares_no_filename q) ->
  declares_filename p name ->
  scan_parts (l1 ++ p :: l2) st =
    {| fileBuffer := Some (payload_block p); filename := name |} /\
  forall l2', scan_parts (l1 ++ p :: l2') st = scan_parts (l1 ++ p :: l2) st.
Proof.
  intros Hn Hp. pose proof (scan_parts_selects l1 p name Hn Hp) as H.
  split; [apply H|]. intros l2'. now rewrite !H.
Qed.

Lemma handler_no_file_found_witness :
  handler example_fetch (Some example_url)
          (multipart_request "XYZ" (multipart_body "XYZ" [field_part "note" (bytes "hello")]))
    = Some ([], Json 400 "No file found in request" None) /\
  handler example_fetch (Some example_url)
          (multipart_request "XYZ" (bytes "no boundary in this body"))
    = Some ([], Json 400 "No file found in request" None).
Proof.
  split.
  - apply (proj1 (handler_no_file_found example_fetch example_url
                    (multipart_request "XYZ" (multipart_body "XYZ" [field_part "note" (bytes "hello")]))
                    (js "multipart/form-data; boundary=XYZ") (js "XYZ")
                    eq_refl ltac:(discriminate) eq_refl eq_refl ltac:(discriminate))
                 [field_part "note" (bytes "hello")]).
    + vm_compute. reflexivity.
    + intros q [<-|[]]. apply select_part_declares_no. vm_compute. reflexivity.
  - apply (proj2 (handler_no_file_found example_fetch example_url
                    (multipart_request "XYZ" (bytes "no boundary in this body"))
                    (js "multipart/form-data; boundary=XYZ") (js "XYZ")
                    eq_refl ltac:(discriminate) eq_refl eq_refl ltac:(discriminate))).
    apply indexOf_none; [lia | vm_compute; reflexivity].
Defined.

Lemma scan_parts_skips_part_without_separator_witness :
  scan_parts [bytes "a part without separator"; file_part "a.pdf" (bytes "A")]
             initial_selection
  = scan_parts [file_part "a.pdf" (bytes "A")] initial_selection.
Proof.
  apply (scan_parts_skips_part_without_separator example_fetch example_url
           [] [file_part "a.pdf" (bytes "A")] (bytes "a part without separator")
           initial_selection).
  vm_compute. reflexivity.
Defined.

Lemma scan_parts_first_match_witness :
  scan_parts ([field_part "note" (bytes "hello")]
                ++ file_part "second.pdf" (bytes "2") :: [file_part "third.pdf" (bytes "3")])
             initial_selection
  = {| fileBuffer := Some (payload_block (file_part "second.pdf" (bytes "2")));
       filename := js "second.pdf" |}.
Proof.
  apply (scan_parts_first_match [field_part "note" (bytes "hello")]
           [file_part "third.pdf" (bytes "3")]
           (file_part "second.pdf" (bytes "2")) (js "second.pdf") initial_selection).
  - intros q [<-|[]]. apply select_part_declares_no. vm_compute. reflexivity.
  - apply (select_part_Some _ _ (bytes "2")). vm_compute. reflexivity.
Defined.

(** The body of three parts of the specification, from the bytes: only
    the second and the third part declare a file name. *)
Example extract_three_parts :
  extract (multipart_body "XYZ" [field_part "note" (bytes "hello");
                                 file_part "second.pdf" (bytes "2");
                                 file_part "third.pdf" (bytes "3")])
          (js "XYZ")
  = Some {| fileBuffer := Some (bytes "2"); filename := js "second.pdf" |}.
Proof. vm_compute. reflexivity. Qed.

(** *** An empty payload is a file *)

Lemma payload_block_empty (p : Buffer) :
  indexOf p SEPARATOR 0 = len p - 4 -> 4 <= len p -> payload_block p = [].
Proof.
  intros H Hl. unfold payload_block, slice_from. rewrite H.
  apply slice_empty; lia.
Qed.

(** When some part declares a file name, the selector assigns
    [fileBuffer]. *)
Lemma scan_parts_some_file (parts : list Buffer) (p : Buffer) (name : jsstring) :
  In p parts -> declares_filename p name ->
  exists content, fileBuffer (scan_parts parts initial_selection) = Some content.
Proof.
  intros Hin Hp.
  destruct (scan_parts_cases parts initial_selection)
    as [(_ & Hn)|(l1 & q & l2 & n & payload & _ & _ & _ & ->)].
  - specialize (Hn p Hin). rewrite (select_part_declares p name Hp) in Hn.
    discriminate Hn.
  - now exists payload.
Qed.

(** C10. A part that declares a file name and ends with its separator is
    selected with an empty payload, which is a buffer and not null. A
    request with such a part is not answered "No file found in
    request": the handler sends an upload and relays the answer; when no
    part before that one declares a file name, the upload is the file
    name of that part with no content. *)
Theorem handler_forwards_empty_payload (fetch : upload -> result downstream)
    (url : jsstring) (req : request) (ct boundary : jsstring)
    (l1 l2 : list Buffer) (p : Buffer) (name : jsstring) :
  method req = js "POST" -> url <> [] ->
  content_type req = Some ct -> match_boundary ct = Some boundary -> boundary <> [] ->
  splitParts (Buffer_concat (chunks req)) boundary = Some (l1 ++ p :: l2) ->
  declares_filename p name ->
  indexOf p SEPARATOR 0 = len p - 4 ->
  select_part p = Some (name, []) /\
  (exists u, handler fetch (Some url) req = Some ([u], relay (fetch u))) /\
  ((forall q, In q l1 -> declares_no_filename q) ->
   extract (Buffer_concat (chunks req)) boundary =
     Some {| fileBuffer := Some []; filename := name |} /\
   handler fetch (Some url) req =
     Some ([upload_of url name []], relay (fetch (upload_of url name [])))).
Proof.
  intros Hm Hu Hc Hb Hne Hs Hp Hi.
  assert (Hl : 4 <= len p).
  { destruct Hp as (h & Hh & _). unfold header_block in Hh.
    destruct (indexOf p SEPARATOR 0 =? -1) eqn:E; [easy|].
    apply Z.eqb_neq in E.
    destruct (indexOf_found p SEPARATOR 0 _ ltac:(lia) ltac:(easy) eq_refl E) as (? & ? & _).
    lia. }
  pose proof (payload_block_empty p Hi Hl) as Hpay.
  assert (He : extract (Buffer_concat (chunks req)) boundary =
               Some (scan_parts (l1 ++ p :: l2) initial_selection)).
  { unfold extract. now rewrite Hs. }
  split; [|split].
  - rewrite (select_part_declares p name Hp). now rewrite Hpay.
  - destruct (scan_parts_some_file (l1 ++ p :: l2) p name (in_elt p l1 l2) Hp)
      as (content & Hf).
    rewrite (handler_extract fetch url req ct boundary _ Hm Hu Hc Hb Hne He), Hf.
    now eexists.
  - intros Hn.
    rewrite (scan_parts_selects l1 p name Hn Hp l2 initial_selection), Hpay in He.
    split; [exact He|].
    now rewrite (handler_extract fetch url req ct boundary _ Hm Hu Hc Hb Hne He).
Qed.

Lemma handler_forwards_empty_payload_witness :
  handler example_fetch (Some example_url)
          (multipart_request "XYZ" (multipart_body "XYZ" [file_part "empty.pdf" []]))
  = Some ([upload_of example_url (js "empty.pdf") []],
          Relay 201 (Some (js "application/json")) (bytes "{}")).
Proof.
  refine (proj2 (proj2 (proj2 (handler_forwards_empty_payload example_fetch example_url
           (multipart_request "XYZ" (multipart_body "XYZ" [file_part "empty.pdf" []]))
           (js "multipart/form-data; boundary=XYZ") (js "XYZ")
           [] [] (file_part "empty.pdf" []) (js "empty.pdf")
           eq_refl ltac:(discriminate) eq_refl eq_refl ltac:(discriminate) _ _ _)) _)).
  - vm_compute. reflexivity.
  - apply (select_part_Some _ _ []). vm_compute. reflexivity.
  - vm_compute. reflexivity.
  - intros q [].
Defined.

(** *** The default file name *)

(** Once the loop has assigned [fileBuffer], the values the two
    variables had before the loop are of no consequence. *)
Lemma scan_parts_assigned (parts : list Buffer) (st st' : selection) (b : Buffer) :
  fileBuffer st = None -> fileBuffer (scan_parts parts st) = Some b ->
  scan_parts parts st' = scan_parts parts st.
Proof.
  intros H0. induction parts as [|p parts IH]; simpl.
  - congruence.
  - now destruct (select_part p) as [[name payload]|].
Qed.

(** The uploads of the [try] block: none, or the one of the selection. *)
Lemma try_block_uploads (fetch : upload -> result downstream) (url : jsstring)
    (req : request) (w : list upload) (r : result response) (u : upload) :
  try_block fetch url req = Some (w, r) -> In u w ->
  exists boundary parts content,
    splitParts (Buffer_concat (chunks req)) boundary = Some parts /\
    fileBuffer (scan_parts parts initial_selection) = Some content /\
    u = upload_of url (filename (scan_parts parts initial_selection)) content.
Proof.
  unfold try_block, getBoundary.
  destruct (content_type req) as [ct|]; simpl; [|now intros [= <- <-]].
  destruct (match_boundary ct) as [[|b0 boundary]|]; simpl;
    [now intros [= <- <-] | | now intros [= <- <-]].
  destruct (splitParts (Buffer_concat (chunks req)) (b0 :: boundary)) as [parts|] eqn:Hs;
    simpl; [|easy].
  unfold forward.
  destruct (fileBuffer (scan_parts parts initial_selection)) as [content|] eqn:Hf;
    simpl; [|now intros [= <- <-]].
  destruct (fetch _) as [resp|err]; simpl; intros [= <- <-] [<-|[]];
    now exists (b0 :: boundary), parts, content.
Qed.

(** C8. Whatever the handler uploads carries as file name the group of
    a match of the [filename] expression in the header block of a part
    of the request, and as content the payload of that part. The value
    that [filename] holds before the loop plays no part in it: from any
    other value the loop ends with the same two variables. That value
    remains only when nothing is selected, and then nothing is
    uploaded. *)
Theorem uploaded_filename_is_captured (fetch : upload -> result downstream)
    (PROCESSOR_URL : option jsstring) (req : request) (w : list upload)
    (r : response) (u : upload) :
  handler fetch PROCESSOR_URL req = Some (w, r) -> In u w ->
  exists boundary parts part h t1 t2,
    splitParts (Buffer_concat (chunks req)) boundary = Some parts /\
    In part parts /\ header_block part = Some h /\
    match_filename (toString_utf8 h) = Some (up_filename u) /\
    toString_utf8 h = t1 ++ lit_filename ++ up_filename u ++ QUOTE :: t2 /\
    is_capture (up_filename u) /\
    up_content u = payload_block part /\
    forall d, scan_parts parts {| fileBuffer := None; filename := d |} =
              scan_parts parts initial_selection.
Proof.
  intros H Hin.
  assert (Ht : exists url w' r', try_block fetch url req = Some (w', r') /\ In u w').
  { unfold handler in H.
    destruct (negb (jsstring_eqb (method req) (js "POST"))); [now injection H as <- <-|].
    destruct PROCESSOR_URL as [[|u0 url]|]; [now injection H as <- <- | | now injection H as <- <-].
    destruct (try_block fetch (u0 :: url) req) as [[w' [r'|err]]|] eqn:E; [| |easy];
      injection H as <- <-;
      (eexists; eexists; eexists; split; [exact E | assumption]). }
  destruct Ht as (url & w' & r' & Ht & Hin').
  destruct (try_block_uploads fetch url req w' r' u Ht Hin')
    as (boundary & parts & content & Hs & Hf & ->).
  destruct (scan_parts_cases parts initial_selection)
    as [(E & _)|(l1 & p & l2 & name & payload & -> & Hn & Hp & E)].
  - rewrite E in Hf. discriminate Hf.
  - apply select_part_Some in Hp. destruct Hp as ((h & Hh & Hm) & ->).
    destruct (match_filename_Some _ _ Hm) as (t1 & t2 & Et & Hc).
    rewrite E in Hf. simpl in Hf. injection Hf as <-.
    exists boundary, (l1 ++ p :: l2), p, h, t1, t2. rewrite E. simpl.
    repeat split; try assumption; try apply Hc.
    + apply in_elt.
    + intros d. rewrite <- E.
      apply (scan_parts_assigned _ initial_selection _ (payload_block p)); [reflexivity|].
      now rewrite E.
Qed.

Lemma uploaded_filename_is_captured_witness :
  exists boundary parts part h t1 t2,
    splitParts
      (Buffer_concat
         (chunks (multipart_request "XYZ"
                    (multipart_body "XYZ" [file_part "report.pdf" (bytes "%PDF-1.4")]))))
      boundary = Some parts /\
    In part parts /\ header_block part = Some h /\
    match_filename (toString_utf8 h) = Some (js "report.pdf") /\
    toString_utf8 h = t1 ++ lit_filename ++ js "report.pdf" ++ QUOTE :: t2 /\
    is_capture (js "report.pdf") /\
    bytes "%PDF-1.4" = payload_block part /\
    forall d, scan_parts parts {| fileBuffer := None; filename := d |} =
              scan_parts parts initial_selection.
Proof.
  apply (uploaded_filename_is_captured example_fetch (Some example_url)
           (multipart_request "XYZ"
              (multipart_body "XYZ" [file_part "report.pdf" (bytes "%PDF-1.4")]))
           [upload_of example_url (js "report.pdf") (bytes "%PDF-1.4")]
           (Relay 201 (Some (js "application/json")) (bytes "{}"))
           (upload_of example_url (js "report.pdf") (bytes "%PDF-1.4"))).
  - vm_compute. reflexivity.
  - left. reflexivity.
Defined.

(** *** The part splitter, in terms of the occurrences of the marker *)

Lemma slice_in_range (buf : Buffer) (start end_ : Z) :
  0 <= start -> start <= end_ -> end_ <= len buf ->
  exists pre post,
    buf = pre ++ slice buf start end_ ++ post /\
    len pre = start /\ len pre + len (slice buf start end_) = end_.
Proof.
  intros H1 H2 H3. pose proof (slice_length buf start end_ H1 H2 H3) as Hl.
  exists (firstn (Z.to_nat start) buf).
  exists (skipn (Z.to_nat (end_ - start)) (skipn (Z.to_nat start) buf)).
  assert (Hp : len (firstn (Z.to_nat start) buf) = start).
  { unfold len. rewrite length_firstn. unfold len in H3. lia. }
  split; [|split; [exact Hp | lia]].
  unfold slice, clamp_index.
  destruct (start <? 0) eqn:E1; [lia|]. destruct (end_ <? 0) eqn:E2; [lia|].
  rewrite !Z.min_l by lia.
  destruct (end_ <=? start) eqn:E.
  - replace (Z.to_nat (end_ - start)) with 0%nat by lia. simpl.
    now rewrite firstn_skipn.
  - now rewrite !firstn_skipn.
Qed.

(** The offsets that the loop gives to [slice] lie within the body. *)
Lemma part_between_offsets (body marker : Buffer) (a b : Z) :
  2 <= len marker -> occurs_at marker body a -> occurs_at marker body b ->
  a + len marker <= b ->
  0 <= a + len marker + 2 <= len body /\ 0 <= b - 2 <= len body.
Proof.
  intros HL Ha Hb Hab. apply occurs_at_range in Ha, Hb. lia.
Qed.

(** C2. The parts are the slices between the consecutive occurrences of
    the marker ["--" + boundary] that the scan of the body finds, each
    occurrence being looked for from the end of the one before (so that
    every occurrence is found, but for those that start inside a found
    one): a part goes from 2 bytes after the end of an occurrence to 2
    bytes before the start of the next one, the last occurrence only
    ends the part before it, and a body with fewer than two occurrences
    gives no part. *)
Theorem splitParts_between_occurrences (body : Buffer) (boundary : jsstring) :
  let marker := boundary_marker boundary in
  exists os,
    scan_chain marker body 0 os /\
    (forall o, In o os -> occurs_at marker body o) /\
    (forall i, occurs_at marker body i ->
       In i os \/ exists o, In o os /\ o < i < o + len marker) /\
    splitParts body boundary = Some (parts_between body marker os) /\
    length (parts_between body marker os) = Nat.pred (length os) /\
    (forall a b, In (a, b) (consecutive_pairs os) ->
       a + len marker + 2 <= b - 2 ->
       exists pre post,
         body = pre ++ part_between body marker (a, b) ++ post /\
         len pre = a + len marker + 2 /\
         len pre + len (part_between body marker (a, b)) = b - 2) /\
    ((forall i j, occurs_at marker body i -> occurs_at marker body j -> i = j) ->
     splitParts body boundary = Some []).
Proof.
  intros marker. destruct (splitParts_chain body boundary) as (os & Hc & Hs).
  fold marker in Hc, Hs. pose proof (boundary_marker_len boundary) as HL. fold marker in HL.
  exists os. split; [exact Hc|].
  split; [intros o Ho; now apply (scan_chain_In _ _ _ _ Hc o)|].
  split; [intros i Hi; apply (scan_chain_covers _ _ _ _ Hc);
          [now apply occurs_at_range in Hi | exact Hi]|].
  split; [exact Hs|]. split; [|split].
  - unfold parts_between, consecutive_pairs. rewrite length_map, length_combine.
    destruct os as [|o os]; [reflexivity|].
    change (tl (o :: os)) with os. change (length (o :: os)) with (S (length os)).
    change (Nat.pred (S (length os))) with (length os). lia.
  - intros a b Hin Hab. destruct (scan_chain_pairs _ _ _ _ Hc a b Hin) as (Ha & Hb & _ & Hle).
    destruct (part_between_offsets body marker a b HL Ha Hb Hle) as (H1 & H2).
    unfold part_between. simpl. apply slice_in_range; lia.
  - intros Huniq. rewrite Hs. destruct os as [|a [|b os]]; [reflexivity | reflexivity |].
    exfalso. destruct (scan_chain_pairs _ _ _ _ Hc a b (or_introl eq_refl))
      as (Ha & Hb & _ & Hle).
    pose proof (Huniq a b Ha Hb). lia.
Qed.

(** A marker that overlaps itself: with the boundary [-] the closing
    delimiter holds three occurrences of the marker, of which the scan
    finds the first. *)
Example splitParts_overlapping_marker :
  let body := bytes "---" ++ CRLF ++ bytes "A" ++ CRLF ++ bytes "-----" ++ CRLF in
  all_occurrences (boundary_marker (js "-")) body = [0; 8; 9; 10] /\
  scan_chain (boundary_marker (js "-")) body 0 [0; 8] /\
  splitParts body (js "-") = Some [bytes "A"].
Proof.
  split; [vm_compute; reflexivity|]. split; [|vm_compute; reflexivity].
  apply chain_step; [apply first_occ_by_indexOf; vm_compute; (reflexivity || discriminate)|].
  apply chain_step; [apply first_occ_by_indexOf; vm_compute; (reflexivity || discriminate)|].
  apply chain_end. apply indexOf_none; vm_compute; (reflexivity || discriminate).
Qed.

(** C9. The splitter always returns: its loop ends within the fuel it is
    given. For each part that it cuts, between an occurrence at [a] and
    the next one at [b], the two offsets given to [slice] are within the
    body, so that nothing is read out of range; the part has
    [b - 2 - (a + len marker + 2)] bytes when the start offset is below
    the end offset, and is empty when it is at or beyond it. *)
Theorem splitParts_total (body : Buffer) (boundary : jsstring) :
  let marker := boundary_marker boundary in
  exists os parts,
    splitParts body boundary = Some parts /\
    scan_chain marker body 0 os /\
    parts = parts_between body marker os /\
    forall a b, In (a, b) (consecutive_pairs os) ->
      let start := a + len marker + 2 in
      let end_ := b - 2 in
      0 <= start <= len body /\ 0 <= end_ <= len body /\
      (end_ <= start -> part_between body marker (a, b) = []) /\
      (start <= end_ -> len (part_between body marker (a, b)) = end_ - start).
Proof.
  intros marker. destruct (splitParts_chain body boundary) as (os & Hc & Hs).
  fold marker in Hc, Hs. pose proof (boundary_marker_len boundary) as HL. fold marker in HL.
  exists os, (parts_between body marker os). split; [exact Hs|]. split; [exact Hc|].
  split; [reflexivity|]. intros a b Hin start end_.
  destruct (scan_chain_pairs _ _ _ _ Hc a b Hin) as (Ha & Hb & _ & Hle).
  destruct (part_between_offsets body marker a b HL Ha Hb Hle) as (H1 & H2).
  split; [exact H1|]. split; [exact H2|]. unfold part_between. simpl. split.
  - intros Hx. apply slice_empty; unfold start, end_ in *; lia.
  - intros Hx. apply slice_length; unfold start, end_ in *; lia.
Qed.

(** *** Round trip of a well-formed body *)

Lemma split_loop_step (fuel : nat) (body boundaryBuf : Buffer) (start next : Z)
    (parts : list Buffer) :
  start <> -1 -> next <> -1 ->
  indexOf body boundaryBuf (start + len boundaryBuf) = next ->
  split_loop (S fuel) body boundaryBuf start parts =
  split_loop fuel body boundaryBuf next
             (parts ++ [slice body (start + len boundaryBuf + 2) (next - 2)]).
Proof.
  intros Hs Hn E. simpl. rewrite E.
  apply Z.eqb_neq in Hs, Hn. now rewrite Hs, Hn.
Qed.

(** The first part of a body whose first two occurrences of the marker
    stand around [CRLF ++ part ++ CRLF]. *)
Lemma splitParts_first_part (boundary : jsstring) (pre part post : Buffer) :
  let marker := boundary_marker boundary in
  let body := pre ++ marker ++ CRLF ++ part ++ CRLF ++ marker ++ post in
  first_occ_from marker body 0 (len pre) ->
  first_occ_from marker body (len pre + len marker)
                 (len pre + len marker + 2 + len part + 2) ->
  exists rest, splitParts body boundary = Some (part :: rest).
Proof.
  intros marker body H1 H2.
  pose proof (boundary_marker_nonempty boundary) as Hne. fold marker in Hne.
  pose proof (len_nonneg pre) as Hp. pose proof (len_nonneg marker) as Hm.
  pose proof (len_nonneg part) as Hq.
  apply indexOf_first in H1; [|lia|exact Hne].
  pose proof H2 as (_ & Ho & _). apply occurs_at_range in Ho.
  apply indexOf_first in H2; [|lia|exact Hne].
  unfold splitParts. fold marker. rewrite H1.
  assert (Hs1 : len pre <> -1) by lia.
  assert (Hs2 : len pre + len marker + 2 + len part + 2 <> -1) by lia.
  rewrite (split_loop_step (length body) body marker _ _ [] Hs1 Hs2 H2).
  replace (slice body (len pre + len marker + 2)
                 (len pre + len marker + 2 + len part + 2 - 2)) with part.
  - destruct (split_loop_chain body marker Hne (length body)
                (len pre + len marker + 2 + len part + 2) ([] ++ [part]))
      as (os & _ & Hs); [lia | lia | unfold len in *; lia |].
    rewrite Hs. eexists. reflexivity.
  - symmetry.
    replace body with ((pre ++ marker ++ CRLF) ++ part ++ (CRLF ++ marker ++ post))
      by (unfold body; now rewrite <- !app_assoc).
    replace (len pre + len marker + 2) with (len (pre ++ marker ++ CRLF))
      by (rewrite !len_app; change (len CRLF) with 2; lia).
    replace (len (pre ++ marker ++ CRLF) + len part + 2 - 2)
      with (len (pre ++ marker ++ CRLF) + len part) by lia.
    apply slice_exact.
Qed.

Lemma is_capture_report_pdf : is_capture (js "report.pdf").
Proof.
  split; [discriminate|]. split; [reflexivity|].
  simpl. unfold QUOTE. intuition discriminate.
Qed.

(** The selector on a part whose header block first reads [filename=]
    and a quote at the attribute [filename="report.pdf"]. *)
Lemma select_part_report_pdf (h1 h2 payload : Buffer) :
  let attribute := bytes "filename=" ++ DQUOTE ++ bytes "report.pdf" ++ DQUOTE in
  let h := h1 ++ attribute ++ h2 in
  let part := h ++ SEPARATOR ++ payload in
  first_occ_from SEPARATOR part 0 (len h) ->
  first_occ_from (bytes "filename=" ++ DQUOTE) h 0 (len h1) ->
  select_part part = Some (js "report.pdf", payload).
Proof.
  intros attribute h part H3 H4.
  destruct (blocks_of_part h payload H3) as (Hh & Hp). fold part in Hh, Hp.
  assert (Ht : toString_utf8 h =
               toString_utf8 h1 ++ lit_filename ++ js "report.pdf"
                 ++ QUOTE :: toString_utf8 h2).
  { unfold h. rewrite toString_utf8_ascii_mid.
    - change (map Byte.to_N attribute) with ((lit_filename ++ js "report.pdf") ++ [QUOTE]).
      now rewrite <- !app_assoc.
    - discriminate.
    - repeat constructor; unfold is_ascii; simpl; lia. }
  assert (Hm : match_filename (toString_utf8 h) = Some (js "report.pdf")).
  { rewrite Ht. apply match_filename_first; [|apply is_capture_report_pdf].
    rewrite <- Ht.
    apply (first_occ_text_of_bytes x66 (bytes "ilename=" ++ DQUOTE) h1
             (bytes "report.pdf" ++ DQUOTE ++ h2)).
    - unfold is_ascii. simpl. lia.
    - repeat constructor; unfold is_ascii; simpl; lia.
    - exact H4. }
  now rewrite select_part_blocks, Hh, Hm, Hp.
Qed.

(** C1. A well-formed body: an opening delimiter, CR LF, a part made of
    a header block, the separator and the payload, CR LF and the next
    delimiter, where the marker occurs neither before the opening
    delimiter nor inside the part, the header block holds no separator,
    and the attribute [filename="report.pdf"] is where the header block
    first reads [filename=] and a quote. The splitter then returns the
    part first, and the extraction gives the file name [report.pdf] and
    exactly the payload. *)
Theorem extract_round_trip (boundary : jsstring) (pre h1 h2 payload post : Buffer) :
  let marker := boundary_marker boundary in
  let attribute := bytes "filename=" ++ DQUOTE ++ bytes "report.pdf" ++ DQUOTE in
  let h := h1 ++ attribute ++ h2 in
  let part := h ++ SEPARATOR ++ payload in
  let body := pre ++ marker ++ CRLF ++ part ++ CRLF ++ marker ++ post in
  first_occ_from marker body 0 (len pre) ->
  first_occ_from marker body (len pre + len marker)
                 (len pre + len marker + 2 + len part + 2) ->
  first_occ_from SEPARATOR part 0 (len h) ->
  first_occ_from (bytes "filename=" ++ DQUOTE) h 0 (len h1) ->
  (exists rest, splitParts body boundary = Some (part :: rest)) /\
  select_part part = Some (js "report.pdf", payload) /\
  extract body boundary =
    Some {| fileBuffer := Some payload; filename := js "report.pdf" |}.
Proof.
  intros marker attribute h part body H1 H2 H3 H4.
  destruct (splitParts_first_part boundary pre part post H1 H2) as (rest & Hs0).
  assert (Hs : splitParts body boundary = Some (part :: rest)) by exact Hs0.
  clear Hs0.
  pose proof (select_part_report_pdf h1 h2 payload H3 H4) as Hsel.
  split; [now exists rest|]. split; [exact Hsel|].
  unfold extract. rewrite Hs. simpl.
  fold attribute in Hsel. fold h in Hsel. fold part in Hsel. now rewrite Hsel.
Qed.

Lemma extract_round_trip_witness :
  extract (multipart_body "XYZ123" [file_part "report.pdf" (bytes "%PDF-1.4 payload")])
          (js "XYZ123")
  = Some {| fileBuffer := Some (bytes "%PDF-1.4 payload"); filename := js "report.pdf" |}.
Proof.
  refine (proj2 (proj2 (extract_round_trip
            (js "XYZ123") []
            (bytes "Content-Disposition: form-data; name=" ++ DQUOTE ++ bytes "file"
               ++ DQUOTE ++ bytes "; ")
            (CRLF ++ bytes "Content-Type: application/pdf")
            (bytes "%PDF-1.4 payload")
            (bytes "--" ++ CRLF) _ _ _ _))).
  - apply first_occ_by_indexOf; vm_compute; (reflexivity || discriminate).
  - apply first_occ_by_indexOf; vm_compute; (reflexivity || discriminate).
  - apply first_occ_by_indexOf; vm_compute; (reflexivity || discriminate).
  - apply first_occ_by_indexOf; vm_compute; (reflexivity || discriminate).
Defined.

(** *** The handler from end to end *)

(** The handler always answers: no input makes a loop run for ever. *)
Lemma handler_total (fetch : upload -> result downstream)
    (PROCESSOR_URL : option jsstring) (req : request) :
  exists w r, handler fetch PROCESSOR_URL req = Some (w, r).
Proof.
  unfold handler.
  destruct (negb (jsstring_eqb (method req) (js "POST"))); [now eexists; eexists|].
  destruct PROCESSOR_URL as [[|u0 url]|]; [now eexists; eexists | | now eexists; eexists].
  unfold try_block, getBoundary.
  destruct (content_type req) as [ct|]; simpl; [|now eexists; eexists].
  destruct (match_boundary ct) as [[|b0 boundary]|]; simpl;
    [now eexists; eexists | | now eexists; eexists].
  destruct (extract_total (Buffer_concat (chunks req)) (b0 :: boundary)) as (parts & -> & _).
  simpl. unfold forward.
  destruct (fileBuffer (scan_parts parts initial_selection)); simpl;
    [|now eexists; eexists].
  destruct (fetch _); simpl; now eexists; eexists.
Qed.

(** The well-formed body of [extract_round_trip] in a POST request: the
    handler uploads the payload under the name [report.pdf] and relays
    the answer of the processor service. *)
Lemma handler_round_trip (fetch : upload -> result downstream) (url : jsstring)
    (req : request) (ct boundary : jsstring) (pre h1 h2 payload post : Buffer) :
  let marker := boundary_marker boundary in
  let attribute := bytes "filename=" ++ DQUOTE ++ bytes "report.pdf" ++ DQUOTE in
  let h := h1 ++ attribute ++ h2 in
  let part := h ++ SEPARATOR ++ payload in
  let body := pre ++ marker ++ CRLF ++ part ++ CRLF ++ marker ++ post in
  method req = js "POST" -> url <> [] ->
  content_type req = Some ct -> match_boundary ct = Some boundary -> boundary <> [] ->
  Buffer_concat (chunks req) = body ->
  first_occ_from marker body 0 (len pre) ->
  first_occ_from marker body (len pre + len marker)
                 (len pre + len marker + 2 + len part + 2) ->
  first_occ_from SEPARATOR part 0 (len h) ->
  first_occ_from (bytes "filename=" ++ DQUOTE) h 0 (len h1) ->
  handler fetch (Some url) req =
    Some ([upload_of url (js "report.pdf") payload],
          relay (fetch (upload_of url (js "report.pdf") payload))).
Proof.
  intros marker attribute h part body Hm Hu Hc Hb Hne Hbody H1 H2 H3 H4.
  destruct (splitParts_first_part boundary pre part post H1 H2) as (rest & Hs0).
  assert (Hs : splitParts body boundary = Some (part :: rest)) by exact Hs0.
  clear Hs0.
  pose proof (select_part_report_pdf h1 h2 payload H3 H4) as Hsel.
  fold attribute in Hsel. fold h in Hsel. fold part in Hsel.
  assert (He : extract (Buffer_concat (chunks req)) boundary =
               Some {| fileBuffer := Some payload; filename := js "report.pdf" |}).
  { rewrite Hbody. unfold extract. rewrite Hs. simpl. now rewrite Hsel. }
  now rewrite (handler_extract fetch url req ct boundary _ Hm Hu Hc Hb Hne He).
Qed.

(** * Further properties of the handler *)

Lemma jsstring_eqb_eq (a b : jsstring) : jsstring_eqb a b = true <-> a = b.
Proof.
  split; [|intros ->; apply jsstring_eqb_refl].
  unfold jsstring_eqb. intros H. apply andb_true_iff in H. destruct H as (Hl & Hp).
  apply Nat.eqb_eq in Hl. apply (prefixb_spec _ N.eqb_eq) in Hp.
  destruct Hp as (post & ->). rewrite length_app in Hl.
  destruct post; [now rewrite app_nil_r | simpl in Hl; lia].
Qed.

(** The handler does what one of the six cases says. *)
Lemma handler_cases (fetch : upload -> result downstream)
    (PROCESSOR_URL : option jsstring) (req : request) :
  exists w r, handler fetch PROCESSOR_URL req = Some (w, r) /\
              handler_case fetch PROCESSOR_URL req w r.
Proof.
  destruct (jsstring_eqb (method req) (js "POST")) eqn:Em.
  2:{ exists [], (Json 405 "Only POST supported" None). split.
      - unfold handler. now rewrite Em.
      - apply case_method. intros E. apply jsstring_eqb_eq in E. congruence. }
  apply jsstring_eqb_eq in Em.
  destruct PROCESSOR_URL as [url|] eqn:Eu.
  2:{ eexists; eexists. split; [|apply case_no_url; [exact Em | now left]].
      unfold handler. now rewrite Em, jsstring_eqb_refl. }
  destruct url as [|u0 url'] eqn:Eurl.
  { eexists; eexists. split; [|apply case_no_url; [exact Em | now right]].
    unfold handler. now rewrite Em, jsstring_eqb_refl. }
  rewrite <- Eurl. assert (Hu : url <> []) by (rewrite Eurl; discriminate).
  clear Eurl.
  destruct (content_type req) as [ct|] eqn:Ec.
  2:{ eexists; eexists. split; [|now apply (case_no_header _ _ _ url)].
      rewrite handler_post by assumption. unfold try_block, getBoundary.
      now rewrite Ec. }
  destruct (match_boundary ct) as [boundary|] eqn:Eb.
  2:{ eexists; eexists. split.
      - apply (handler_no_boundary fetch url req ct); auto.
      - apply (case_no_boundary _ _ _ url ct); auto. }
  destruct boundary as [|b0 boundary'] eqn:Ebd.
  { eexists; eexists. split.
    - apply (handler_no_boundary fetch url req ct); auto.
    - apply (case_no_boundary _ _ _ url ct); auto. }
  rewrite <- Ebd in *. assert (Hne : boundary <> []) by (rewrite Ebd; discriminate).
  clear Ebd.
  destruct (extract_total (Buffer_concat (chunks req)) boundary) as (parts & Hs & He).
  rewrite (handler_extract fetch url req ct boundary _ Em Hu Ec Eb Hne He).
  destruct (scan_parts_cases parts initial_selection)
    as [(E & Hn)|(l1 & p & l2 & name & payload & -> & Hn & Hp & E)].
  - rewrite E. simpl. eexists; eexists. split; [reflexivity|].
    apply (case_no_file _ _ _ url ct boundary parts); auto.
    intros q Hq. now apply select_part_declares_no, Hn.
  - rewrite E. simpl. apply select_part_Some in Hp. destruct Hp as (Hp & ->).
    eexists; eexists. split; [reflexivity|].
    apply (case_upload _ _ _ url ct boundary name l1 l2 p); auto.
    intros q Hq. now apply select_part_declares_no, Hn.
Qed.

Lemma handler_case_of (fetch : upload -> result downstream)
    (PROCESSOR_URL : option jsstring) (req : request) (w : list upload) (r : response) :
  handler fetch PROCESSOR_URL req = Some (w, r) ->
  handler_case fetch PROCESSOR_URL req w r.
Proof.
  intros H. destruct (handler_cases fetch PROCESSOR_URL req) as (w' & r' & H' & Hc).
  congruence.
Qed.

(** ** The gates in front of the parser *)

(** Any method but POST is answered 405, whatever the environment, the
    headers, the body and the processor service: nothing is parsed and
    nothing is uploaded. *)
Theorem handler_rejects_other_methods (fetch : upload -> result downstream)
    (PROCESSOR_URL : option jsstring) (req : request) :
  method req <> js "POST" ->
  handler fetch PROCESSOR_URL req = Some ([], Json 405 "Only POST supported" None).
Proof.
  intros H. unfold handler.
  destruct (jsstring_eqb (method req) (js "POST")) eqn:E; [|reflexivity].
  apply jsstring_eqb_eq in E. contradiction.
Qed.

Lemma handler_rejects_other_methods_witness :
  handler example_fetch None
          {| method := js "GET"; content_type := None; chunks := [] |}
  = Some ([], Json 405 "Only POST supported" None).
Proof.
  apply handler_rejects_other_methods. simpl. discriminate.
Defined.

(** A Content-Type value in which [boundary=] does not occur, or first
    occurs at its very end, yields no boundary: the request is answered
    400 "Invalid multipart/form-data" and nothing is uploaded. *)
Theorem handler_invalid_multipart (fetch : upload -> result downstream)
    (url : jsstring) (req : request) (ct : jsstring) :
  method req = js "POST" -> url <> [] -> content_type req = Some ct ->
  no_occ_from lit_boundary ct 0 \/
  (exists pre, ct = pre ++ lit_boundary /\ first_occ_from lit_boundary ct 0 (len pre)) ->
  handler fetch (Some url) req = Some ([], Json 400 "Invalid multipart/form-data" None).
Proof.
  intros Hm Hu Hc H. apply (handler_no_boundary fetch url req ct Hm Hu Hc).
  destruct H as [H|(pre & E & H)].
  - left. now apply match_boundary_none.
  - right. subst ct. rewrite <- (app_nil_r lit_boundary) in *.
    now apply match_boundary_first.
Qed.

Lemma handler_invalid_multipart_witness :
  handler example_fetch (Some example_url)
          {| method := js "POST"; content_type := Some (js "application/json");
             chunks := [bytes "{}"] |}
    = Some ([], Json 400 "Invalid multipart/form-data" None) /\
  handler example_fetch (Some example_url)
          {| method := js "POST";
             content_type := Some (js "multipart/form-data; boundary=");
             chunks := [] |}
    = Some ([], Json 400 "Invalid multipart/form-data" None).
Proof.
  split.
  - apply (handler_invalid_multipart example_fetch example_url
             {| method := js "POST"; content_type := Some (js "application/json");
                chunks := [bytes "{}"] |}
             (js "application/json") eq_refl ltac:(discriminate) eq_refl).
    left. apply (find_from_None N.eqb N.eqb_eq _ _ 0%nat). reflexivity.
  - apply (handler_invalid_multipart example_fetch example_url
             {| method := js "POST";
                content_type := Some (js "multipart/form-data; boundary=");
                chunks := [] |}
             (js "multipart/form-data; boundary=") eq_refl ltac:(discriminate) eq_refl).
    right. exists (js "multipart/form-data; "). split; [reflexivity|].
    apply (find_from_first N.eqb N.eqb_eq _ _ 21%nat); reflexivity.
Defined.

(** ** What the handler sends and what it answers *)

(** The handler sends at most one upload per request, and only for a
    POST request with [PROCESSOR_URL] set: it goes to that URL followed
    by [/upload], in the form field [file]. *)
Theorem handler_upload_shape (fetch : upload -> result downstream)
    (PROCESSOR_URL : option jsstring) (req : request) (w : list upload)
    (r : response) (u : upload) :
  handler fetch PROCESSOR_URL req = Some (w, r) -> In u w ->
  w = [u] /\ method req = js "POST" /\
  exists url, PROCESSOR_URL = Some url /\ url <> [] /\
              up_url u = url ++ js "/upload" /\ up_field u = js "file".
Proof.
  intros H Hin. apply handler_case_of in H.
  destruct H; try contradiction.
  destruct Hin as [<-|[]]. split; [reflexivity|]. split; [assumption|].
  exists url. now repeat split.
Qed.

Lemma handler_upload_shape_witness :
  let u := upload_of example_url (js "report.pdf") (bytes "%PDF-1.4") in
  [u] = [u] /\ js "POST" = js "POST" /\
  exists url, Some example_url = Some url /\ url <> [] /\
              up_url u = url ++ js "/upload" /\ up_field u = js "file".
Proof.
  apply (handler_upload_shape example_fetch (Some example_url)
           (multipart_request "XYZ"
              (multipart_body "XYZ" [file_part "report.pdf" (bytes "%PDF-1.4")]))
           [upload_of example_url (js "report.pdf") (bytes "%PDF-1.4")]
           (Relay 201 (Some (js "application/json")) (bytes "{}"))
           (upload_of example_url (js "report.pdf") (bytes "%PDF-1.4"))).
  - vm_compute. reflexivity.
  - left. reflexivity.
Defined.

(** Once the upload is sent, the answer of the processor service is the
    response: its status, its Content-Type and its body as they are;
    when the call fails instead, the response is 500 "Proxy failed" with
    the error as detail. *)
Theorem handler_relays_answer (fetch : upload -> result downstream)
    (PROCESSOR_URL : option jsstring) (req : request) (w : list upload)
    (r : response) (u : upload) :
  handler fetch PROCESSOR_URL req = Some (w, r) -> In u w ->
  (forall resp, fetch u = Ok resp ->
     r = Relay (ds_status resp) (ds_content_type resp) (ds_body resp)) /\
  (forall err, fetch u = Throw err -> r = Json 500 "Proxy failed" (Some err)).
Proof.
  intros H Hin. apply handler_case_of in H.
  destruct H; try contradiction.
  destruct Hin as [<-|[]]. split; intros x ->; reflexivity.
Qed.

Lemma handler_relays_answer_witness :
  let u := upload_of example_url (js "report.pdf") (bytes "%PDF-1.4") in
  (forall resp, example_fetch u = Ok resp ->
     Relay 201 (Some (js "application/json")) (bytes "{}") =
     Relay (ds_status resp) (ds_content_type resp) (ds_body resp)) /\
  (forall err, example_fetch u = Throw err ->
     Relay 201 (Some (js "application/json")) (bytes "{}") =
     Json 500 "Proxy failed" (Some err)).
Proof.
  apply (handler_relays_answer example_fetch (Some example_url)
           (multipart_request "XYZ"
              (multipart_body "XYZ" [file_part "report.pdf" (bytes "%PDF-1.4")]))
           [upload_of example_url (js "report.pdf") (bytes "%PDF-1.4")]).
  - vm_compute. reflexivity.
  - left. reflexivity.
Defined.

(** When the handler sends no upload, its response is one of five JSON
    errors and never a relayed answer. *)
Theorem handler_without_upload (fetch : upload -> result downstream)
    (PROCESSOR_URL : option jsstring) (req : request) (r : response) :
  handler fetch PROCESSOR_URL req = Some ([], r) ->
  r = Json 405 "Only POST supported" None \/
  r = Json 500 "PROCESSOR_URL env variable missing" None \/
  r = Json 500 "Proxy failed" (Some TypeError_match_of_undefined) \/
  r = Json 400 "Invalid multipart/form-data" None \/
  r = Json 400 "No file found in request" None.
Proof.
  intros H. apply handler_case_of in H.
  inversion H; subst; tauto.
Qed.

Lemma handler_without_upload_witness :
  let r := Json 500 "PROCESSOR_URL env variable missing" None in
  r = Json 405 "Only POST supported" None \/
  r = Json 500 "PROCESSOR_URL env variable missing" None \/
  r = Json 500 "Proxy failed" (Some TypeError_match_of_undefined) \/
  r = Json 400 "Invalid multipart/form-data" None \/
  r = Json 400 "No file found in request" None.
Proof.
  apply (handler_without_upload example_fetch (Some [])
           (multipart_request "XYZ" (multipart_body "XYZ" []))).
  reflexivity.
Defined.

(** The answer "No file found in request" is given only to a POST
    request with a boundary none of whose parts declares a file name,
    and without any upload. *)
Theorem handler_no_file_found_only_if (fetch : upload -> result downstream)
    (PROCESSOR_URL : option jsstring) (req : request) (w : list upload) :
  handler fetch PROCESSOR_URL req =
    Some (w, Json 400 "No file found in request" None) ->
  w = [] /\ method req = js "POST" /\
  exists url ct boundary parts,
    PROCESSOR_URL = Some url /\ url <> [] /\
    content_type req = Some ct /\
    getBoundary (Some ct) = Ok (Some boundary) /\ boundary <> [] /\
    splitParts (Buffer_concat (chunks req)) boundary = Some parts /\
    forall q, In q parts -> declares_no_filename q.
Proof.
  intros H. apply handler_case_of in H.
  inversion H as [ | | | | url ct boundary parts Hm Hu Hne Hc Hb Hbn Hs Hn
                   | url ct boundary name l1 l2 p Hm Hu Hne Hc Hb Hbn Hs Hn Hp Hw Hr ];
    subst.
  - split; [reflexivity|]. split; [assumption|].
    exists url, ct, boundary, parts. simpl. rewrite Hb. now repeat split.
  - exfalso. unfold relay in Hr. destruct (fetch _); discriminate Hr.
Qed.

Lemma handler_no_file_found_only_if_witness :
  [] = @nil upload /\ js "POST" = js "POST" /\
  exists url ct boundary parts,
    Some example_url = Some url /\ url <> [] /\
    Some (js "multipart/form-data; boundary=" ++ js "XYZ") = Some ct /\
    getBoundary (Some ct) = Ok (Some boundary) /\ boundary <> [] /\
    splitParts (Buffer_concat [multipart_body "XYZ" [field_part "note" (bytes "hello")]])
               boundary = Some parts /\
    forall q, In q parts -> declares_no_filename q.
Proof.
  apply (handler_no_file_found_only_if example_fetch (Some example_url)
           (multipart_request "XYZ" (multipart_body "XYZ" [field_part "note" (bytes "hello")]))
           []).
  vm_compute. reflexivity.
Defined.

(** * Further properties of the splitter and of the selector *)

Lemma occurs_at_app_r {A : Type} (pat s t : list A) (i : Z) :
  occurs_at pat s i -> occurs_at pat (s ++ t) i.
Proof.
  intros (pre & post & -> & L). exists pre, (post ++ t).
  split; [now rewrite <- !app_assoc | exact L].
Qed.

(** An occurrence in a piece is an occurrence in the whole. *)
Lemma occurs_at_piece {A : Type} (pat pre s post : list A) (i : Z) :
  occurs_at pat s i -> occurs_at pat (pre ++ s ++ post) (len pre + i).
Proof.
  intros H. pose proof (occurs_at_range _ _ _ H) as (Hi & _).
  apply occurs_at_app_l; [exact Hi|]. now apply occurs_at_app_r.
Qed.

Lemma piece_of_refl (b : Buffer) : piece_of b b.
Proof. exists [], []. now rewrite app_nil_r. Qed.

Lemma piece_of_trans (a b c : Buffer) : piece_of a b -> piece_of b c -> piece_of a c.
Proof.
  intros (p1 & q1 & ->) (p2 & q2 & ->). exists (p2 ++ p1), (q1 ++ q2).
  now rewrite <- !app_assoc.
Qed.

(** Whatever its two indices, [slice] returns a piece of the buffer. *)
Lemma slice_piece (buf : Buffer) (start end_ : Z) : piece_of (slice buf start end_) buf.
Proof.
  unfold slice.
  set (s := clamp_index (len buf) start). set (e := clamp_index (len buf) end_).
  destruct (e <=? s).
  - exists [], buf. reflexivity.
  - exists (firstn (Z.to_nat s) buf), (skipn (Z.to_nat (e - s)) (skipn (Z.to_nat s) buf)).
    now rewrite !firstn_skipn.
Qed.

(** In a scan, the occurrence that follows another is the first one from
    the end of that other. *)
Lemma scan_chain_pairs_first {A : Type} (pat s : list A) (from : Z) (os : list Z) :
  scan_chain pat s from os ->
  forall a b, In (a, b) (consecutive_pairs os) ->
    first_occ_from pat s (a + len pat) b.
Proof.
  induction 1 as [from Hn | from o os Hf Hc IH]; intros a b Hin; [easy|].
  destruct os as [|o' os']; [easy|].
  destruct Hin as [[= <- <-]|Hin].
  - now inversion Hc; subst.
  - now apply IH.
Qed.

Lemma splitParts_part_between (body : Buffer) (boundary : jsstring)
    (parts : list Buffer) (part : Buffer) :
  splitParts body boundary = Some parts -> In part parts ->
  exists os a b,
    scan_chain (boundary_marker boundary) body 0 os /\
    In (a, b) (consecutive_pairs os) /\
    part = part_between body (boundary_marker boundary) (a, b).
Proof.
  intros Hs Hin. destruct (splitParts_chain body boundary) as (os & Hc & Hs').
  rewrite Hs in Hs'. injection Hs' as ->.
  unfold parts_between in Hin. apply in_map_iff in Hin.
  destruct Hin as ((a & b) & <- & Hin). now exists os, a, b.
Qed.

(** No part holds the marker: a part ends before the first occurrence
    that follows the delimiter it starts after. *)
Theorem splitParts_parts_without_marker (body : Buffer) (boundary : jsstring)
    (parts : list Buffer) (part : Buffer) :
  splitParts body boundary = Some parts -> In part parts ->
  forall i, ~ occurs_at (boundary_marker boundary) part i.
Proof.
  intros Hs Hin i Ho.
  destruct (splitParts_part_between body boundary parts part Hs Hin)
    as (os & a & b & Hc & Hp & ->).
  set (marker := boundary_marker boundary) in *.
  pose proof (boundary_marker_len boundary) as HL. fold marker in HL.
  destruct (scan_chain_pairs _ _ _ _ Hc a b Hp) as (Ha & Hb & _ & Hle).
  destruct (part_between_offsets body marker a b HL Ha Hb Hle) as (H1 & H2).
  pose proof (scan_chain_pairs_first _ _ _ _ Hc a b Hp) as (_ & _ & Hmin).
  pose proof (occurs_at_range _ _ _ Ho) as (Hi & Hr).
  destruct (Z_lt_le_dec (b - 2) (a + len marker + 2)) as [Hx|Hx].
  - unfold part_between in Hr. simpl in Hr. rewrite slice_empty in Hr by lia.
    change (len (@nil byte)) with 0 in Hr. lia.
  - unfold part_between in *. simpl in *.
    destruct (slice_in_range body (a + len marker + 2) (b - 2)) as (pre & post & E & Hl & Hl');
      [lia | lia | lia |].
    apply (Hmin (len pre + i)); [lia | lia |].
    rewrite E at 1. now apply occurs_at_piece.
Qed.

Lemma splitParts_parts_without_marker_witness :
  splitParts (multipart_body "XYZ" [field_part "note" (bytes "hello");
                                    file_part "a.pdf" (bytes "A")])
             (js "XYZ")
    = Some [field_part "note" (bytes "hello"); file_part "a.pdf" (bytes "A")] /\
  forall i, ~ occurs_at (boundary_marker (js "XYZ")) (file_part "a.pdf" (bytes "A")) i.
Proof.
  assert (H : splitParts (multipart_body "XYZ" [field_part "note" (bytes "hello");
                                                file_part "a.pdf" (bytes "A")])
                         (js "XYZ")
              = Some [field_part "note" (bytes "hello"); file_part "a.pdf" (bytes "A")])
    by (vm_compute; reflexivity).
  split; [exact H|].
  apply (splitParts_parts_without_marker _ _ _ _ H). right. left. reflexivity.
Defined.

(** Every part is a run of consecutive bytes of the body. *)
Lemma splitParts_part_piece (body : Buffer) (boundary : jsstring)
    (parts : list Buffer) (part : Buffer) :
  splitParts body boundary = Some parts -> In part parts -> piece_of part body.
Proof.
  intros Hs Hin.
  destruct (splitParts_part_between body boundary parts part Hs Hin)
    as (os & a & b & _ & _ & ->).
  apply slice_piece.
Qed.

(** The cut of the selector loses nothing: a part with a header block
    is that block, the separator and the payload, and the block holds
    no separator. *)
Theorem header_and_payload_make_part (part h : Buffer) :
  header_block part = Some h ->
  part = h ++ SEPARATOR ++ payload_block part /\
  first_occ_from SEPARATOR part 0 (len h).
Proof.
  unfold header_block, payload_block. intros H.
  destruct (indexOf part SEPARATOR 0 =? -1) eqn:E; [discriminate|].
  apply Z.eqb_neq in E. injection H as <-.
  pose proof (indexOf_found part SEPARATOR 0 _ ltac:(lia) ltac:(discriminate) eq_refl E)
    as Hf.
  destruct Hf as (Hge & (pre & post & Ep & Hl) & Hm).
  rewrite <- Hl.
  assert (E1 : slice part 0 (len pre) = pre).
  { rewrite Ep. apply (slice_exact [] pre (SEPARATOR ++ post)). }
  assert (E2 : slice_from part (len pre + 4) = post).
  { rewrite Ep, app_assoc.
    replace (len pre + 4) with (len (pre ++ SEPARATOR)) by (rewrite len_app; reflexivity).
    apply slice_from_exact. }
  rewrite E1, E2. split; [exact Ep|]. rewrite Hl. repeat split; try assumption.
  exists pre, post. now split.
Qed.

Lemma header_and_payload_make_part_witness :
  let part := file_part "a.pdf" (bytes "A") in
  let h := bytes "Content-Disposition: form-data; name=" ++ DQUOTE ++ bytes "file"
             ++ DQUOTE ++ bytes "; filename=" ++ DQUOTE ++ bytes "a.pdf" ++ DQUOTE
             ++ CRLF ++ bytes "Content-Type: application/pdf" in
  part = h ++ SEPARATOR ++ payload_block part /\
  first_occ_from SEPARATOR part 0 (len h).
Proof.
  apply header_and_payload_make_part. vm_compute. reflexivity.
Defined.

(** What the handler uploads is a run of consecutive bytes of the body
    of the request: the handler adds, drops and changes no byte of the
    file. *)
Theorem handler_uploads_piece_of_body (fetch : upload -> result downstream)
    (PROCESSOR_URL : option jsstring) (req : request) (w : list upload)
    (r : response) (u : upload) :
  handler fetch PROCESSOR_URL req = Some (w, r) -> In u w ->
  piece_of (up_content u) (Buffer_concat (chunks req)).
Proof.
  intros H Hin. apply handler_case_of in H.
  destruct H as [ | | | | | url ct boundary name l1 l2 p Hm Hu Hne Hc Hb Hbn Hs Hn Hp];
    try contradiction.
  destruct Hin as [<-|[]]. simpl.
  apply (piece_of_trans _ p).
  - apply slice_piece.
  - apply (splitParts_part_piece _ boundary (l1 ++ p :: l2)); [exact Hs | apply in_elt].
Qed.

Lemma handler_uploads_piece_of_body_witness :
  piece_of (bytes "%PDF-1.4")
           (Buffer_concat
              (chunks (multipart_request "XYZ"
                 (multipart_body "XYZ" [file_part "report.pdf" (bytes "%PDF-1.4")])))).
Proof.
  apply (handler_uploads_piece_of_body example_fetch (Some example_url)
           (multipart_request "XYZ"
              (multipart_body "XYZ" [file_part "report.pdf" (bytes "%PDF-1.4")]))
           [upload_of example_url (js "report.pdf") (bytes "%PDF-1.4")]
           (Relay 201 (Some (js "application/json")) (bytes "{}"))
           (upload_of example_url (js "report.pdf") (bytes "%PDF-1.4"))).
  - vm_compute. reflexivity.
  - left. reflexivity.
Defined.

(** ** Parts that are not files *)

(** The literal of the [filename] expression is the text of its bytes. *)
Lemma lit_filename_bytes : lit_filename = map Byte.to_N FILENAME_ATTR.
Proof. reflexivity. Qed.

Lemma FILENAME_ATTR_ascii : Forall is_ascii FILENAME_ATTR.
Proof. repeat constructor; unfold is_ascii; simpl; lia. Qed.

(** The literal occurs in the text of a buffer only where the text of
    what precedes an occurrence in the buffer ends. *)
Lemma lit_filename_occurrence (h : Buffer) (i : Z) :
  occurs_at lit_filename (toString_utf8 h) i ->
  exists pre post, h = pre ++ FILENAME_ATTR ++ post /\ len (toString_utf8 pre) = i.
Proof.
  intros H. rewrite lit_filename_bytes in H.
  apply (utf8_decode_occurrence x66 (bytes "ilename=" ++ DQUOTE)) in H;
    [exact H | unfold is_ascii; simpl; lia | | exact I].
  repeat constructor; unfold is_ascii; simpl; lia.
Qed.

(** A part whose header block does not hold the bytes [filename=] and a
    quote (a plain form field, or a part without separator) is never
    taken for the file. *)
Theorem select_part_without_filename_attribute (part : Buffer) :
  (forall h, header_block part = Some h -> no_occ_from FILENAME_ATTR h 0) ->
  select_part part = None.
Proof.
  intros H. apply select_part_declares_no. intros h Hh.
  apply match_filename_none. intros i Hi Ho.
  destruct (lit_filename_occurrence h i Ho) as (pre & post & E & _).
  apply (H h Hh (len pre)); [apply len_nonneg|]. rewrite E. apply occurs_at_mid.
Qed.

Lemma select_part_without_filename_attribute_witness :
  select_part (field_part "note" (bytes "hello")) = None.
Proof.
  apply select_part_without_filename_attribute. intros h Hh.
  assert (E : h = bytes "Content-Disposition: form-data; name=" ++ DQUOTE
                    ++ bytes "note" ++ DQUOTE).
  { vm_compute in Hh. injection Hh as <-. reflexivity. }
  subst h. apply indexOf_none; [lia | vm_compute; reflexivity].
Defined.

Lemma match_filename_None_intro (s : jsstring) :
  (forall t1 t2, s = t1 ++ t2 -> match_filename_here t2 = None) ->
  match_filename s = None.
Proof.
  induction s as [|c s IH]; intros H; [reflexivity|].
  rewrite match_filename_cons, (H [] (c :: s) eq_refl).
  apply IH. intros t1 t2 ->. now apply (H (c :: t1) t2).
Qed.

Lemma app_len_inj {A : Type} (l1 l1' l2 l2' : list A) :
  l1 ++ l2 = l1' ++ l2' -> len l1 = len l1' -> l1 = l1' /\ l2 = l2'.
Proof.
  revert l1'. induction l1 as [|a l1 IH]; intros [|a' l1'] E L.
  - now split.
  - rewrite len_cons in L. pose proof (len_nonneg l1'). unfold len in L at 1. simpl in L. lia.
  - rewrite len_cons in L. pose proof (len_nonneg l1). unfold len in L at 2. simpl in L. lia.
  - simpl in E. injection E as <- E. rewrite !len_cons in L.
    destruct (IH l1' E ltac:(lia)) as (-> & ->). now split.
Qed.

(** An empty file name, as a form sends it when no file was chosen, is
    no file name: when the header block reads [filename=] and a quote
    once only, followed at once by the closing quote and then by the end
    of the block or of the line, the part is not taken for the file. *)
Theorem select_part_empty_filename (part h1 h2 : Buffer) :
  let h := h1 ++ FILENAME_ATTR ++ DQUOTE ++ h2 in
  header_block part = Some h ->
  (forall j, occurs_at FILENAME_ATTR h j -> j = len h1) ->
  h2 = [] \/ (exists h2', h2 = x0d :: h2') \/ (exists h2', h2 = x0a :: h2') ->
  select_part part = None.
Proof.
  intros h Hh Huniq Hend. apply select_part_declares_no. intros h' Hh'.
  rewrite Hh in Hh'. injection Hh' as <-.
  assert (Ht : toString_utf8 h =
               toString_utf8 h1 ++ lit_filename ++ QUOTE :: toString_utf8 h2).
  { unfold h. rewrite (app_assoc FILENAME_ATTR DQUOTE h2).
    rewrite toString_utf8_ascii_mid; [| discriminate |].
    - change (map Byte.to_N (FILENAME_ATTR ++ DQUOTE)) with (lit_filename ++ [QUOTE]).
      now rewrite <- app_assoc.
    - repeat constructor; unfold is_ascii; simpl; lia. }
  apply match_filename_None_intro. intros t1 t2 E.
  destruct (match_filename_here t2) as [cap|] eqn:Em; [exfalso | reflexivity].
  apply match_filename_here_Some in Em. destruct Em as (t3 & -> & Hne & Hlt & Hq).
  destruct (lit_filename_occurrence h (len t1)) as (pre & post & Eh & Hl).
  { rewrite E. apply occurs_at_mid. }
  assert (Hpre : len pre = len h1).
  { apply Huniq. rewrite Eh. apply occurs_at_mid. }
  unfold h in Eh. destruct (app_len_inj _ _ _ _ Eh (eq_sym Hpre)) as (<- & _).
  rewrite Ht in E. destruct (app_len_inj _ _ _ _ E Hl) as (_ & E2).
  apply app_inv_head in E2.
  destruct cap as [|c cap]; [easy|]. simpl in E2. injection E2 as <- E2.
  simpl in Hlt, Hq. unfold toString_utf8 in E2.
  destruct Hend as [-> | [(h2' & ->) | (h2' & ->)]].
  - simpl in E2. destruct cap; discriminate E2.
  - simpl in E2. destruct cap as [|c' cap]; simpl in E2; injection E2 as E2 _.
    + discriminate E2.
    + subst c'. simpl in Hlt. discriminate Hlt.
  - simpl in E2. destruct cap as [|c' cap]; simpl in E2; injection E2 as E2 _.
    + discriminate E2.
    + subst c'. simpl in Hlt. discriminate Hlt.
Qed.

Lemma select_part_empty_filename_witness : select_part empty_file_part = None.
Proof.
  apply (select_part_empty_filename empty_file_part
           (bytes "Content-Disposition: form-data; name=" ++ DQUOTE ++ bytes "file"
              ++ DQUOTE ++ bytes "; ")
           (CRLF ++ bytes "Content-Type: application/octet-stream")).
  - vm_compute. reflexivity.
  - intros j Hj. apply all_occurrences_spec in Hj. vm_compute in Hj.
    destruct Hj as [<-|[]]. vm_compute. reflexivity.
  - right. left. eexists. reflexivity.
Defined.

(** ** What precedes the first delimiter *)

Lemma first_occ_shift {A : Type} (pat pre s : list A) (from i : Z) :
  0 <= from -> first_occ_from pat s from i ->
  first_occ_from pat (pre ++ s) (len pre + from) (len pre + i).
Proof.
  intros H0 (Hge & Ho & Hm). split; [lia|]. split.
  - apply occurs_at_app_l; [lia | exact Ho].
  - intros j Hj1 Hj2 Hc. apply (Hm (j - len pre)); [lia | lia |].
    apply (occurs_at_app_l pat s pre); [lia|].
    now replace (len pre + (j - len pre)) with j by lia.
Qed.

Lemma no_occ_shift {A : Type} (pat pre s : list A) (from : Z) :
  0 <= from -> no_occ_from pat s from -> no_occ_from pat (pre ++ s) (len pre + from).
Proof.
  intros H0 Hn j Hj Hc. apply (Hn (j - len pre)); [lia|].
  apply (occurs_at_app_l pat s pre); [lia|].
  now replace (len pre + (j - len pre)) with j by lia.
Qed.

(** The scan of [pre ++ s] from the end of [pre] is the scan of [s],
    moved by the length of [pre]. *)
Lemma scan_chain_shift {A : Type} (pat pre s : list A) (from : Z) (os : list Z) :
  scan_chain pat s from os -> 0 <= from ->
  scan_chain pat (pre ++ s) (len pre + from) (map (Z.add (len pre)) os).
Proof.
  induction 1 as [from Hn | from o os Hf Hc IH]; intros H0; simpl.
  - apply chain_end. now apply no_occ_shift.
  - apply chain_step; [now apply first_occ_shift|].
    destruct Hf as (Hge & _). pose proof (len_nonneg pat).
    replace (len pre + o + len pat) with (len pre + (o + len pat)) by lia.
    apply IH. lia.
Qed.

(** A scan may start earlier, as long as it starts after every
    occurrence that it would otherwise find. *)
Lemma scan_chain_earlier {A : Type} (pat s : list A) (from from' : Z) (os : list Z) :
  scan_chain pat s from os -> from' <= from ->
  (forall j, from' <= j -> j < from -> ~ occurs_at pat s j) ->
  scan_chain pat s from' os.
Proof.
  intros Hc Hle Hn. destruct Hc as [from Hno | from o os Hf Hc].
  - apply chain_end. intros j Hj. destruct (Z_lt_le_dec j from); [now apply Hn | now apply Hno].
  - apply chain_step; [|exact Hc]. destruct Hf as (Hge & Ho & Hm).
    split; [lia|]. split; [exact Ho|]. intros j Hj1 Hj2.
    destruct (Z_lt_le_dec j from); [now apply Hn | now apply Hm].
Qed.

Lemma consecutive_pairs_map {A B : Type} (f : A -> B) (l : list A) :
  consecutive_pairs (map f l) =
  map (fun ab => (f (fst ab), f (snd ab))) (consecutive_pairs l).
Proof.
  unfold consecutive_pairs. destruct l as [|a l]; [reflexivity|]. simpl tl.
  revert a. induction l as [|b l IH]; intros a; [reflexivity|].
  simpl. f_equal. apply IH.
Qed.

Lemma slice_shift (pre s : Buffer) (start end_ : Z) :
  0 <= start -> 0 <= end_ ->
  slice (pre ++ s) (len pre + start) (len pre + end_) = slice s start end_.
Proof.
  intros H1 H2. unfold slice, clamp_index. rewrite len_app.
  pose proof (len_nonneg pre). pose proof (len_nonneg s).
  destruct (len pre + start <? 0) eqn:E1; [lia|].
  destruct (len pre + end_ <? 0) eqn:E2; [lia|].
  destruct (start <? 0) eqn:E3; [lia|]. destruct (end_ <? 0) eqn:E4; [lia|].
  replace (Z.min (len pre + start) (len pre + len s))
    with (len pre + Z.min start (len s)) by lia.
  replace (Z.min (len pre + end_) (len pre + len s))
    with (len pre + Z.min end_ (len s)) by lia.
  set (s' := Z.min start (len s)). set (e' := Z.min end_ (len s)).
  destruct (len pre + e' <=? len pre + s') eqn:E5;
    destruct (e' <=? s') eqn:E6; try lia; [reflexivity|].
  replace (len pre + e' - (len pre + s')) with (e' - s') by lia.
  replace (Z.to_nat (len pre + s')) with (length pre + Z.to_nat s')%nat
    by (unfold len, s'; lia).
  rewrite skipn_app, skipn_all2 by lia.
  replace (length pre + Z.to_nat s' - length pre)%nat with (Z.to_nat s') by lia.
  reflexivity.
Qed.

(** Bytes in front of the first delimiter change nothing: when the
    marker first occurs in [pre ++ rest] where [rest] starts, the parts
    of [pre ++ rest] are the parts of [rest]. *)
Theorem splitParts_ignores_preamble (pre rest : Buffer) (boundary : jsstring) :
  first_occ_from (boundary_marker boundary) (pre ++ rest) 0 (len pre) ->
  splitParts (pre ++ rest) boundary = splitParts rest boundary.
Proof.
  intros (_ & Ho & Hm). set (marker := boundary_marker boundary) in *.
  pose proof (boundary_marker_len boundary) as HL. fold marker in HL.
  destruct (splitParts_chain rest boundary) as (os & Hc & Hs). fold marker in Hc, Hs.
  destruct (splitParts_chain (pre ++ rest) boundary) as (os' & Hc' & Hs').
  fold marker in Hc', Hs'. rewrite Hs, Hs'. f_equal.
  assert (Hsh : scan_chain marker (pre ++ rest) 0 (map (Z.add (len pre)) os)).
  { apply (scan_chain_earlier marker (pre ++ rest) (len pre + 0)).
    - apply scan_chain_shift; [exact Hc | lia].
    - pose proof (len_nonneg pre). lia.
    - intros j Hj1 Hj2. apply Hm; lia. }
  rewrite (scan_chain_unique _ _ _ _ _ Hc' Hsh).
  unfold parts_between. rewrite consecutive_pairs_map, map_map.
  apply map_ext_in. intros (a & b) Hin. unfold part_between. simpl.
  destruct (scan_chain_pairs _ _ _ _ Hc a b Hin) as (Ha & Hb & _ & Hle).
  apply occurs_at_range in Ha, Hb.
  rewrite <- (slice_shift pre rest (a + len marker + 2) (b - 2)) by lia.
  f_equal; lia.
Qed.

Lemma splitParts_ignores_preamble_witness :
  splitParts (bytes "This is a preamble." ++ CRLF
                ++ multipart_body "XYZ" [file_part "a.pdf" (bytes "A")]) (js "XYZ")
  = splitParts (multipart_body "XYZ" [file_part "a.pdf" (bytes "A")]) (js "XYZ").
Proof.
  rewrite app_assoc.
  apply (splitParts_ignores_preamble (bytes "This is a preamble." ++ CRLF)).
  apply first_occ_by_indexOf; vm_compute; (reflexivity || discriminate).
Defined.

(** ** Any file name *)

(** The round trip of [extract_round_trip] for any file name: the name
    uploaded is the text of the bytes between the quotes, as long as
    that text is not empty and holds no line terminator, and no quote
    after its first character. *)
Theorem extract_any_file_name (boundary : jsstring)
    (pre h1 name h2 payload post : Buffer) :
  let marker := boundary_marker boundary in
  let h := h1 ++ FILENAME_ATTR ++ name ++ DQUOTE ++ h2 in
  let part := h ++ SEPARATOR ++ payload in
  let body := pre ++ marker ++ CRLF ++ part ++ CRLF ++ marker ++ post in
  first_occ_from marker body 0 (len pre) ->
  first_occ_from marker body (len pre + len marker)
                 (len pre + len marker + 2 + len part + 2) ->
  first_occ_from SEPARATOR part 0 (len h) ->
  first_occ_from FILENAME_ATTR h 0 (len h1) ->
  is_capture (toString_utf8 name) ->
  extract body boundary =
    Some {| fileBuffer := Some payload; filename := toString_utf8 name |}.
Proof.
  intros marker h part body H1 H2 H3 H4 Hcap.
  destruct (splitParts_first_part boundary pre part post H1 H2) as (rest & Hs0).
  assert (Hs : splitParts body boundary = Some (part :: rest)) by exact Hs0.
  clear Hs0.
  destruct (blocks_of_part h payload H3) as (Hh & Hp). fold part in Hh, Hp.
  assert (Ht : toString_utf8 h =
               toString_utf8 h1 ++ lit_filename ++ toString_utf8 name
                 ++ QUOTE :: toString_utf8 h2).
  { unfold h. rewrite toString_utf8_ascii_mid;
      [| discriminate | apply FILENAME_ATTR_ascii].
    rewrite <- lit_filename_bytes. do 2 f_equal. unfold toString_utf8.
    apply (utf8_decode_ascii_app x22 h2); [unfold is_ascii; simpl; lia | exact I]. }
  assert (Hm : match_filename (toString_utf8 h) = Some (toString_utf8 name)).
  { rewrite Ht. apply match_filename_first; [|exact Hcap]. rewrite <- Ht.
    rewrite lit_filename_bytes.
    apply (first_occ_text_of_bytes x66 (bytes "ilename=" ++ DQUOTE) h1
             (name ++ DQUOTE ++ h2)); [| | exact H4].
    - unfold is_ascii. simpl. lia.
    - repeat constructor; unfold is_ascii; simpl; lia. }
  unfold extract. rewrite Hs. simpl.
  now rewrite select_part_blocks, Hh, Hm, Hp.
Qed.

Lemma extract_any_file_name_witness :
  extract (bytes "--XYZ" ++ CRLF
             ++ (bytes "Content-Disposition: form-data; name=" ++ DQUOTE ++ bytes "file"
                   ++ DQUOTE ++ bytes "; " ++ FILENAME_ATTR
                   ++ (bytes "r" ++ [xc3; xa9] ++ bytes "sum" ++ [xc3; xa9] ++ bytes " (1).pdf")
                   ++ DQUOTE ++ [])
             ++ SEPARATOR ++ bytes "%PDF" ++ CRLF ++ bytes "--XYZ" ++ bytes "--" ++ CRLF)
          (js "XYZ")
  = Some {| fileBuffer := Some (bytes "%PDF");
            filename := js "r" ++ [233%N] ++ js "sum" ++ [233%N] ++ js " (1).pdf" |}.
Proof.
  refine (extract_any_file_name (js "XYZ") []
            (bytes "Content-Disposition: form-data; name=" ++ DQUOTE ++ bytes "file"
               ++ DQUOTE ++ bytes "; ")
            (bytes "r" ++ [xc3; xa9] ++ bytes "sum" ++ [xc3; xa9] ++ bytes " (1).pdf")
            [] (bytes "%PDF") (bytes "--" ++ CRLF) _ _ _ _ _).
  - apply first_occ_by_indexOf; vm_compute; (reflexivity || discriminate).
  - apply first_occ_by_indexOf; vm_compute; (reflexivity || discriminate).
  - apply first_occ_by_indexOf; vm_compute; (reflexivity || discriminate).
  - apply first_occ_by_indexOf; vm_compute; (reflexivity || discriminate).
  - split; [discriminate|]. split; [reflexivity|]. vm_compute. intuition discriminate.
Defined.

(** ** [getBoundary] on any string *)

(** On any string, [getBoundary] returns [rest] exactly when [rest]
    follows an occurrence of [boundary=], holds no line terminator, and
    every earlier occurrence of [boundary=] has a line terminator
    somewhere after it. *)
Theorem getBoundary_on_any_string (s rest : jsstring) :
  getBoundary (Some s) = Ok (Some rest) <->
  exists pre, s = pre ++ lit_boundary ++ rest /\
              no_line_terminator rest = true /\
              forall pre' rest', s = pre' ++ lit_boundary ++ rest' ->
                                 len pre' < len pre ->
                                 no_line_terminator rest' = false.
Proof.
  rewrite <- match_boundary_Some. simpl. split.
  - now intros [= ->].
  - now intros ->.
Qed.

(** ** The splitter undoes the framing *)

Lemma occurs_at_prefix {A : Type} (pat a b : list A) (j : Z) :
  occurs_at pat (a ++ b) j -> j + len pat <= len a -> occurs_at pat a j.
Proof.
  intros (pre & post & E & <-) Hl.
  assert (Hn : (length (pre ++ pat) <= length a)%nat).
  { rewrite length_app. unfold len in Hl. lia. }
  exists pre, (firstn (length a - length (pre ++ pat)) post). split; [|reflexivity].
  rewrite app_assoc in E. apply (f_equal (firstn (length a))) in E.
  rewrite firstn_app, firstn_all, Nat.sub_diag, firstn_O, app_nil_r in E.
  rewrite firstn_app, (firstn_all2 (pre ++ pat)) in E by exact Hn.
  rewrite <- app_assoc in E. exact E.
Qed.

(** A first occurrence that ends a buffer stays the first one whatever
    is added after it. *)
Lemma first_occ_extend {A : Type} (pat x rest : list A) (from : Z) :
  first_occ_from pat (x ++ pat) from (len x) ->
  first_occ_from pat (x ++ pat ++ rest) from (len x).
Proof.
  intros (Hge & _ & Hm). split; [exact Hge|]. split; [apply occurs_at_mid|].
  intros j Hj1 Hj2 Hc. apply (Hm j Hj1 Hj2).
  rewrite app_assoc in Hc. apply (occurs_at_prefix _ _ _ _ Hc).
  rewrite len_app. lia.
Qed.

Lemma parts_between_shift (pre s marker : Buffer) (from : Z) (os : list Z) :
  2 <= len marker -> scan_chain marker s from os ->
  parts_between (pre ++ s) marker (map (Z.add (len pre)) os) = parts_between s marker os.
Proof.
  intros HL Hc. unfold parts_between. rewrite consecutive_pairs_map, map_map.
  apply map_ext_in. intros (a & b) Hin. unfold part_between. simpl.
  destruct (scan_chain_pairs _ _ _ _ Hc a b Hin) as (Ha & Hb & _ & Hle).
  apply occurs_at_range in Ha, Hb.
  rewrite <- (slice_shift pre s (a + len marker + 2) (b - 2)) by lia.
  f_equal; lia.
Qed.

(** The parts of a delimiter, a part and what follows the part, when
    what follows starts with the next delimiter. *)
Lemma splitParts_cons (boundary : jsstring) (p rest : Buffer) :
  let marker := boundary_marker boundary in
  first_occ_from marker (marker ++ CRLF ++ p ++ CRLF ++ marker ++ rest)
                 (len marker) (len marker + 2 + len p + 2) ->
  splitParts (marker ++ CRLF ++ p ++ CRLF ++ marker ++ rest) boundary =
  option_map (cons p) (splitParts (marker ++ rest) boundary).
Proof.
  intros marker Hf.
  pose proof (boundary_marker_len boundary) as HL. fold marker in HL.
  pose proof (len_nonneg p) as Hp.
  set (D := marker ++ CRLF ++ p ++ CRLF).
  assert (HD : len D = len marker + 2 + len p + 2).
  { unfold D. rewrite !len_app. change (len CRLF) with 2. lia. }
  assert (EW : marker ++ CRLF ++ p ++ CRLF ++ marker ++ rest = D ++ (marker ++ rest)).
  { unfold D. now rewrite <- !app_assoc. }
  rewrite EW in *. rewrite <- HD in Hf.
  destruct (splitParts_chain (marker ++ rest) boundary) as (os & Hc & Hs).
  fold marker in Hc, Hs.
  destruct (splitParts_chain (D ++ marker ++ rest) boundary) as (os' & Hc' & Hs').
  fold marker in Hc', Hs'. rewrite Hs, Hs'. cbn [option_map]. f_equal.
  assert (H0 : exists os1, os = 0 :: os1).
  { inversion Hc as [? Hn|? o os1 Hfo Hc1]; subst.
    - exfalso. apply (Hn 0); [lia | apply occurs_at_here].
    - exists os1. f_equal. destruct Hfo as (Hge & _ & Hm).
      destruct (Z.eq_dec o 0) as [E|E]; [exact E|]. exfalso.
      apply (Hm 0); [lia | lia | apply occurs_at_here]. }
  destruct H0 as (os1 & ->).
  assert (Hsh : scan_chain marker (D ++ marker ++ rest) 0
                           (0 :: map (Z.add (len D)) (0 :: os1))).
  { apply chain_step.
    - split; [lia|]. split; [|intros; lia].
      unfold D. rewrite <- !app_assoc. apply occurs_at_here.
    - apply (scan_chain_earlier marker _ (len D + 0)).
      + apply scan_chain_shift; [exact Hc | lia].
      + lia.
      + destruct Hf as (_ & _ & Hm). intros j Hj1 Hj2. apply Hm; lia. }
  rewrite (scan_chain_unique _ _ _ _ _ Hc' Hsh).
  change (map (Z.add (len D)) (0 :: os1)) with (len D + 0 :: map (Z.add (len D)) os1).
  rewrite parts_between_cons2. f_equal.
  - unfold part_between. cbn [fst snd].
    replace (D ++ marker ++ rest)
      with ((marker ++ CRLF) ++ p ++ (CRLF ++ marker ++ rest))
      by (unfold D; now rewrite <- !app_assoc).
    replace (0 + len marker + 2) with (len (marker ++ CRLF))
      by (rewrite len_app; change (len CRLF) with 2; lia).
    replace (len D + 0 - 2) with (len (marker ++ CRLF) + len p)
      by (rewrite HD, len_app; change (len CRLF) with 2; lia).
    apply slice_exact.
  - apply (parts_between_shift D (marker ++ rest) marker 0 (0 :: os1) HL Hc).
Qed.

Lemma framed_cons (marker p : Buffer) (parts : list Buffer) (tail : Buffer) :
  framed marker (p :: parts) tail = marker ++ CRLF ++ p ++ CRLF ++ framed marker parts tail.
Proof. unfold framed. cbn [flat_map]. now rewrite <- !app_assoc. Qed.

Lemma framed_starts (marker : Buffer) (parts : list Buffer) (tail : Buffer) :
  exists rest, framed marker parts tail = marker ++ rest.
Proof.
  destruct parts as [|p parts].
  - now exists tail.
  - rewrite framed_cons. eexists. reflexivity.
Qed.

(** The splitter undoes the framing of a body: when, in a delimiter, a
    part and the next delimiter, the marker occurs after the first
    delimiter only as the next one, and does not occur after the closing
    delimiter, the parts of the framed body are the parts that were
    framed, in their order. *)
Theorem splitParts_framed (boundary : jsstring) (parts : list Buffer) (tail : Buffer) :
  let marker := boundary_marker boundary in
  (forall p, In p parts ->
     first_occ_from marker (marker ++ CRLF ++ p ++ CRLF ++ marker)
                    (len marker) (len marker + 2 + len p + 2)) ->
  no_occ_from marker (marker ++ tail) (len marker) ->
  splitParts (framed marker parts tail) boundary = Some parts.
Proof.
  intros marker Hparts Htail. subst marker.
  induction parts as [|p parts IH].
  - change (framed (boundary_marker boundary) [] tail)
      with (boundary_marker boundary ++ tail).
    destruct (splitParts_chain (boundary_marker boundary ++ tail) boundary)
      as (os & Hc & ->).
    f_equal.
    assert (H1 : scan_chain (boundary_marker boundary)
                            (boundary_marker boundary ++ tail) 0 [0]).
    { apply chain_step; [|now apply chain_end].
      split; [lia|]. split; [apply occurs_at_here | intros; lia]. }
    now rewrite (scan_chain_unique _ _ _ _ _ Hc H1).
  - rewrite framed_cons.
    destruct (framed_starts (boundary_marker boundary) parts tail) as (rest & E).
    rewrite E. pose proof (splitParts_cons boundary p rest) as Hcons.
    cbv zeta in Hcons. rewrite Hcons.
    + rewrite <- E, IH; [reflexivity|].
      intros q Hq. apply Hparts. now right.
    + set (marker := boundary_marker boundary) in *.
      replace (len marker + 2 + len p + 2) with (len (marker ++ CRLF ++ p ++ CRLF))
        by (rewrite !len_app; change (len CRLF) with 2; lia).
      replace (marker ++ CRLF ++ p ++ CRLF ++ marker ++ rest)
        with ((marker ++ CRLF ++ p ++ CRLF) ++ marker ++ rest)
        by now rewrite <- !app_assoc.
      apply first_occ_extend.
      replace (len (marker ++ CRLF ++ p ++ CRLF)) with (len marker + 2 + len p + 2)
        by (rewrite !len_app; change (len CRLF) with 2; lia).
      rewrite <- !app_assoc. apply Hparts. now left.
Qed.

Lemma splitParts_framed_witness :
  splitParts (framed (boundary_marker (js "XYZ"))
                     [field_part "note" (bytes "hello"); file_part "a.pdf" (bytes "A"); []]
                     (bytes "--" ++ CRLF))
             (js "XYZ")
  = Some [field_part "note" (bytes "hello"); file_part "a.pdf" (bytes "A"); []].
Proof.
  apply splitParts_framed.
  - intros p [<-|[<-|[<-|[]]]];
      apply first_occ_by_indexOf; vm_compute; (reflexivity || discriminate).
  - apply indexOf_none; vm_compute; (reflexivity || discriminate).
Defined.
